(** * Factor regression on monthly returns: a shallow embedding of
      [scripts/factor_model.py]

    The script fetches Fama-French factors, stores them in SQLite, joins them
    with monthly returns per ticker and fits an OLS regression.

    Conventions of the embedding.
    - In the tables and in the pipeline a numpy/pandas [float64] is a value
      of [fl]: either a finite number, carried as an exact rational, or [NaN]
      (which is also how pandas represents a missing value in a numeric
      column).  This arithmetic is exact: rounding and infinities are not
      modelled.  The only divisions of the script are [sum / len],
      [v / 100.0] and the guarded [ss_res / ss_tot]; a division by zero
      yields [NaN] here (numpy: [0/0 = nan]).
    - What depends on rounding, the value of [r2], is stated for
      [Generic.ols], the regression engine over any arithmetic, and evaluated
      in [binary64], the IEEE 754 double precision of numpy.
    - Strings are [string]; Python's [str] order and SQLite's BINARY collation
      are both the lexicographic order on code units, [String.compare].
    - [np.linalg.lstsq], [pd.to_datetime] and the two [DataReader] downloads
      are library calls: they are parameters of the functions that use them.
    - The SQLite database is a record of tables, threaded through the
      functions; a Python exception is an [outcome]. *)

From Stdlib Require Import PrimFloat.
From Stdlib Require Import List String Ascii Bool Arith NArith ZArith QArith Lia Lra Lqa.
From Stdlib Require Import Permutation Sorted Setoid Morphisms.
From Stdlib Require OrderedTypeEx.
Import ListNotations.
Local Open Scope Q_scope.

(** [len] of a list; [String.length] keeps its qualified name. *)
Abbreviation length := Datatypes.length.

(* ------------------------------------------------------------------ *)
(** ** Floating-point values with NaN *)

Module Float.

Inductive fl : Type :=
| Fin (q : Q)
| NaN.

Definition isna (x : fl) : bool :=
  match x with NaN => true | Fin _ => false end.

Definition lift2 (op : Q -> Q -> Q) (x y : fl) : fl :=
  match x, y with
  | Fin a, Fin b => Fin (op a b)
  | _, _ => NaN
  end.

Definition fadd := lift2 Qplus.
Definition fsub := lift2 Qminus.
Definition fmul := lift2 Qmult.

Definition fdiv (x y : fl) : fl :=
  match x, y with
  | Fin a, Fin b => if Qeq_bool b 0 then NaN else Fin (a / b)
  | _, _ => NaN
  end.

(** [x ** 2] *)
Definition fsq (x : fl) : fl := fmul x x.

(** [x > 0]; a comparison with NaN is false. *)
Definition fpos (x : fl) : bool :=
  match x with
  | Fin a => negb (Qle_bool a 0)
  | NaN => false
  end.

(** [arr.sum()]; in exact arithmetic the order of the additions is
    immaterial. *)
Definition fsum (l : list fl) : fl := fold_right fadd (Fin 0) l.

Definition of_nat (n : nat) : fl := Fin (inject_Z (Z.of_nat n)).

(** [arr.mean()] *)
Definition mean (l : list fl) : fl := fdiv (fsum l) (of_nat (length l)).

(** Equality of floats up to the representation of the rational. *)
Definition feq (x y : fl) : Prop :=
  match x, y with
  | Fin a, Fin b => a == b
  | NaN, NaN => True
  | _, _ => False
  end.

End Float.
Export Float.

(* ------------------------------------------------------------------ *)
(** ** The regression engine: [ols] *)

Definition zipWith {A B C} (f : A -> B -> C) (l1 : list A) (l2 : list B) : list C :=
  map (fun p => f (fst p) (snd p)) (combine l1 l2).

(** One entry of [X1 @ coefs]. *)
Definition dot (row coefs : list fl) : fl := fsum (zipWith fmul row coefs).

(** [np.column_stack([np.ones(len(X)), X])] *)
Definition column_stack_ones (X : list (list fl)) : list (list fl) :=
  map (cons (Fin 1)) X.

(** [((y - y.mean()) ** 2).sum()] *)
Definition ss_tot (y : list fl) : fl :=
  fsum (map (fun v => fsq (fsub v (mean y))) y).

(** [(resid ** 2).sum()] with [resid = y - yhat] *)
Definition ss_res (y yhat : list fl) : fl :=
  fsum (map fsq (zipWith fsub y yhat)).

Section Ols.

(** [np.linalg.lstsq(X1, y, rcond=None)[0]]; [None] when it raises
    [LinAlgError]. *)
Variable lstsq : list (list fl) -> list fl -> option (list fl).

Definition ols (y : list fl) (X : list (list fl)) : option (list fl * fl * nat) :=
  let X1 := column_stack_ones X in
  match lstsq X1 y with
  | None => None
  | Some coefs =>
      let yhat := map (fun row => dot row coefs) X1 in
      let r2 := if fpos (ss_tot y)
                then fsub (Fin 1) (fdiv (ss_res y yhat) (ss_tot y))
                else NaN in
      Some (coefs, r2, length y)
  end.

End Ols.

(* ------------------------------------------------------------------ *)
(** ** Exceptions *)

Inductive error : Type :=
| DataSourceError              (* [pdr.DataReader] raised *)
| KeyError (col : string)      (* a column is not in the frame *)
| DatabaseError                (* the queried table or view does not exist *)
| LinAlgError                  (* raised by [np.linalg.lstsq] *)
| IndexError                   (* [coefs[i]] out of range *)
| NoReturnsFound               (* RuntimeError: "Fant ingen monthly returns ..." *)
| NoFactorsFound.              (* RuntimeError: "Fant ingen faktorer i DB." *)

Inductive result (A : Type) : Type :=
| Ok (a : A)
| Raise (e : error).
Arguments Ok {A} a.
Arguments Raise {A} e.

Definition bind {A B} (m : result A) (k : A -> result B) : result B :=
  match m with
  | Ok a => k a
  | Raise e => Raise e
  end.

Notation "x <- m ;; k" := (bind m (fun x => k))
  (at level 61, m at next level, right associativity).

(* ------------------------------------------------------------------ *)
(** ** Generic helpers: sorting, [unique], string extrema *)

Section SortBy.
Context {A : Type} (le : A -> A -> bool).

Fixpoint insert_by (x : A) (l : list A) : list A :=
  match l with
  | [] => [x]
  | y :: r => if le x y then x :: l else y :: insert_by x r
  end.

(** A stable sort: an element goes in front of the first strictly larger
    one among those already placed, which all followed it in the input. *)
Definition sort_by (l : list A) : list A := fold_right insert_by [] l.
End SortBy.

(** [sorted(l)] on strings *)
Definition sorted (l : list string) : list string := sort_by String.leb l.

(** [Series.unique()]: the distinct values in order of first appearance. *)
Fixpoint unique (l : list string) : list string :=
  match l with
  | [] => []
  | x :: r => x :: filter (fun y => negb (String.eqb y x)) (unique r)
  end.

Definition str_min (a b : string) : string := if String.leb a b then a else b.
Definition str_max (a b : string) : string := if String.leb a b then b else a.

(** [Series.min()] and [Series.max()] of a non-empty column of strings,
    given as head and tail. *)
Definition min_of (x : string) (l : list string) : string := fold_left str_min l x.
Definition max_of (x : string) (l : list string) : string := fold_left str_max l x.

(* ------------------------------------------------------------------ *)
(** ** Tables *)

(** A frame keyed by the column [ym]: the names of the other columns and,
    per row, the key and the values of those columns. Column names are taken
    to be distinct. *)
Record frame : Type := {
  columns : list string;
  rows : list (string * list fl)
}.

Fixpoint col_index (c : string) (cols : list string) : option nat :=
  match cols with
  | [] => None
  | c' :: r => if String.eqb c' c then Some 0%nat
               else option_map S (col_index c r)
  end.

Definition has_col (c : string) (cols : list string) : bool :=
  existsb (String.eqb c) cols.

(** [row[c]], [NaN] standing for the value of a column that is absent. *)
Definition get_col (cols : list string) (c : string) (vals : list fl) : fl :=
  match col_index c cols with
  | Some i => nth i vals NaN
  | None => NaN
  end.

(** One row of [vw_monthly_returns]. *)
Record ret_row : Type := {
  r_ticker : string;
  r_ym : string;
  r_mret : fl
}.

(** One row of [factor_reg_results]. *)
Record result_row : Type := {
  ticker : string;
  start_ym : string;
  end_ym : string;
  nobs : nat;
  r2 : fl;
  alpha : fl;
  beta_mkt : fl;
  beta_smb : fl;
  beta_hml : fl;
  beta_mom : option fl            (* [None] is SQL NULL *)
}.

(** The SQLite database; [None] is a table or view that does not exist. *)
Record store : Type := {
  factors_monthly : option frame;
  vw_monthly_returns : option (list ret_row);
  factor_reg_results : option (list result_row)
}.

(* ------------------------------------------------------------------ *)
(** ** The factor normaliser: [_ym_from_index], [load_factors_ff] *)

(** The index of a downloaded frame. A month is (year, month), a date is
    (year, month, day); [None] is [NaT].  [PeriodIndex] is a period index of
    monthly frequency, as the data source delivers; a period index of
    another frequency (annual, daily, ...) is [PeriodIndexOther], given by
    the strings that [astype(str)] renders for its entries. *)
Inductive index : Type :=
| PeriodIndex (l : list (option (nat * nat)))
| PeriodIndexOther (l : list string)
| DatetimeIndex (l : list (option (nat * nat * nat)))
| ObjectIndex (l : list string).

Definition digit (n : nat) : ascii := ascii_of_nat (48 + n mod 10).

(** [str] of a monthly period, ['YYYY-MM'] for a four-digit year; [NaT]
    prints as ['NaT']. *)
Definition period_str (p : option (nat * nat)) : string :=
  match p with
  | Some (y, m) =>
      String (digit (y / 1000)) (String (digit (y / 100)) (String (digit (y / 10))
        (String (digit y) (String "-" (String (digit (m / 10))
          (String (digit m) EmptyString))))))
  | None => "NaT"
  end.

(** [to_period("M")] *)
Definition to_period_M (d : option (nat * nat * nat)) : option (nat * nat) :=
  match d with
  | Some (y, m, _) => Some (y, m)
  | None => None
  end.

Definition is_digit (c : ascii) : bool :=
  let n := nat_of_ascii c in (48 <=? n)%nat && (n <=? 57)%nat.

(** A well-formed time key ['YYYY-MM'] with month 01..12. *)
Definition valid_ym (s : string) : bool :=
  match list_ascii_of_string s with
  | [y1; y2; y3; y4; dash; m1; m2] =>
      is_digit y1 && is_digit y2 && is_digit y3 && is_digit y4
      && Ascii.eqb dash "-"
      && is_digit m1 && is_digit m2
      && let m := (10 * (nat_of_ascii m1 - 48) + (nat_of_ascii m2 - 48))%nat in
         (1 <=? m)%nat && (m <=? 12)%nat
  | _ => false
  end.

(** ASCII whitespace, as removed by [str.strip()]; the column names of the
    data source are ASCII, and the whitespace of Unicode beyond ASCII is not
    modelled. *)
Definition is_space (c : ascii) : bool :=
  let n := nat_of_ascii c in
  ((9 <=? n)%nat && (n <=? 13)%nat) || ((28 <=? n)%nat && (n <=? 32)%nat).

Fixpoint lstrip (l : list ascii) : list ascii :=
  match l with
  | c :: r => if is_space c then lstrip r else l
  | [] => []
  end.

Definition strip (s : string) : string :=
  string_of_list_ascii (rev (lstrip (rev (lstrip (list_ascii_of_string s))))).

(** [rename(columns={"Mkt-RF": "mkt_rf", "SMB": "smb", "HML": "hml", "RF": "rf"})] *)
Definition rename_ff3 (c : string) : string :=
  if String.eqb c "Mkt-RF" then "mkt_rf"
  else if String.eqb c "SMB" then "smb"
  else if String.eqb c "HML" then "hml"
  else if String.eqb c "RF" then "rf"
  else c.

(** [rename(columns={"Mom": "mom"})] *)
Definition rename_mom (c : string) : string :=
  if String.eqb c "Mom" then "mom" else c.

(** A downloaded frame: its index, its column names and its rows. *)
Record raw_frame : Type := {
  raw_index : index;
  raw_columns : list string;
  raw_data : list (list fl)
}.

(** The values of a row without those of the columns named [c]. *)
Fixpoint drop_col (c : string) (cols : list string) (vals : list fl) : list fl :=
  match cols, vals with
  | c' :: cs, v :: vs =>
      if String.eqb c' c then drop_col c cs vs else v :: drop_col c cs vs
  | _, _ => []
  end.

Definition drop_name (c : string) (cols : list string) : list string :=
  filter (fun c' => negb (String.eqb c' c)) cols.

(** [subset] columns that are not in the frame make [dropna] raise. *)
Fixpoint check_cols (subset cols : list string) : result unit :=
  match subset with
  | [] => Ok tt
  | c :: r => if has_col c cols then check_cols r cols else Raise (KeyError c)
  end.

Definition required_factors : list string := ["mkt_rf"; "smb"; "hml"; "rf"]%string.

Section Normalizer.

(** [pd.to_datetime(., errors="coerce")] on one entry; [None] is [NaT]. *)
Variable to_datetime : string -> option (nat * nat * nat).

Definition _ym_from_index (idx : index) : list string :=
  match idx with
  | PeriodIndex l => map period_str l
  | PeriodIndexOther l => l
  | DatetimeIndex l => map (fun d => period_str (to_period_M d)) l
  | ObjectIndex l => map (fun s => period_str (to_period_M (to_datetime s))) l
  end.

(** Strip the column names, set the column [ym] from the index (replacing a
    column of that name) and rename. *)
Definition keyed (rename : string -> string) (raw : raw_frame) : frame :=
  let cols := map strip (raw_columns raw) in
  {| columns := map rename (drop_name "ym" cols);
     rows := combine (_ym_from_index (raw_index raw))
                     (map (drop_col "ym" cols) (raw_data raw)) |}.

(** [ff3.merge(mom[["ym", "mom"]], on="ym", how="left")]; [None] when
    [mom] has no column [mom] (a [KeyError], caught by the caller). *)
Definition merge_mom (ff3 mom : frame) : option frame :=
  if has_col "mom" (columns mom) then
    let right := map (fun r => (fst r, get_col (columns mom) "mom" (snd r))) (rows mom) in
    Some {| columns :=
              if has_col "mom" (columns ff3)
              then map (fun c => if String.eqb c "mom" then "mom_x"%string else c) (columns ff3)
                   ++ ["mom_y"%string]
              else columns ff3 ++ ["mom"%string];
            rows :=
              flat_map (fun l =>
                match filter (fun r => String.eqb (fst r) (fst l)) right with
                | [] => [(fst l, snd l ++ [NaN])]
                | ms => map (fun r => (fst l, snd l ++ [snd r])) ms
                end) (rows ff3) |}
  else None.

(** [DataReader("F-F_Research_Data_Factors", "famafrench")[0]] and
    [DataReader("F-F_Momentum_Factor", "famafrench")[0]]; [None] when the
    download raises. *)
Variable fetch_ff3 : option raw_frame.
Variable fetch_mom : option raw_frame.

(** The [try] block: the momentum column is merged in when it can be. *)
Definition with_momentum (ff3 : frame) : frame :=
  match fetch_mom with
  | Some rawm =>
      match merge_mom ff3 (keyed rename_mom rawm) with
      | Some m => m
      | None => ff3
      end
  | None => ff3
  end.

(** [ff[col] = pd.to_numeric(ff[col], errors="coerce") / 100.0] for every
    column but [ym]. *)
Definition to_decimal (ff : frame) : frame :=
  {| columns := columns ff;
     rows := map (fun r => (fst r, map (fun v => fdiv v (Fin 100)) (snd r))) (rows ff) |}.

Definition load_factors_ff (start_ym : string) : result frame :=
  match fetch_ff3 with
  | None => Raise DataSourceError
  | Some raw3 =>
      let ff := to_decimal (with_momentum (keyed rename_ff3 raw3)) in
      let from_start := filter (fun r => String.leb start_ym (fst r)) (rows ff) in
      _ <- check_cols required_factors (columns ff) ;;
      Ok {| columns := columns ff;
            rows := filter (fun r =>
                      forallb (fun c => negb (isna (get_col (columns ff) c (snd r))))
                              required_factors) from_start |}
  end.

(* ------------------------------------------------------------------ *)
(** ** The factor provisioner: [ensure_factors_in_db] *)

Definition ensure_factors_in_db (conn : store) (start_ym : string) : result store :=
  let reload :=
    ff <- load_factors_ff start_ym ;;
    Ok {| factors_monthly := Some ff;
          vw_monthly_returns := vw_monthly_returns conn;
          factor_reg_results := factor_reg_results conn |} in
  match factors_monthly conn with
  | Some t => if (0 <? length (rows t))%nat then Ok conn else reload
  | None => reload
  end.

End Normalizer.

(* ------------------------------------------------------------------ *)
(** ** The queries of [main] *)

(** [SELECT ticker, ym, mret FROM vw_monthly_returns
     WHERE ym >= ? AND ticker IN (...) ORDER BY ym] *)
Definition q_returns (conn : store) (start_ym : string) (tickers : list string)
  : result (list ret_row) :=
  match vw_monthly_returns conn with
  | None => Raise DatabaseError
  | Some v =>
      Ok (sort_by (fun a b => String.leb (r_ym a) (r_ym b))
            (filter (fun r => String.leb start_ym (r_ym r)
                              && existsb (String.eqb (r_ticker r)) tickers) v))
  end.

(** [SELECT * FROM factors_monthly WHERE ym >= ? ORDER BY ym] *)
Definition q_factors (conn : store) (start_ym : string) : result frame :=
  match factors_monthly conn with
  | None => Raise DatabaseError
  | Some t =>
      Ok {| columns := columns t;
            rows := sort_by (fun a b => String.leb (fst a) (fst b))
                      (filter (fun r => String.leb start_ym (fst r)) (rows t)) |}
  end.

(* ------------------------------------------------------------------ *)
(** ** The return aligner and the per-ticker regression *)

(** [left.merge(fac, on="ym", how="inner")]: the pairs with equal keys, in
    the order of the left rows. *)
Definition merge_inner (left : list ret_row) (fac : frame) : list (ret_row * list fl) :=
  flat_map (fun l =>
      map (fun r => (l, snd r))
          (filter (fun r => String.eqb (fst r) (r_ym l)) (rows fac)))
    left.

(** The row has a value in [mret], [mkt_rf], [smb], [hml] and [rf]. *)
Definition complete (cols : list string) (d : ret_row * list fl) : bool :=
  negb (isna (r_mret (fst d)))
  && forallb (fun c => negb (isna (get_col cols c (snd d)))) required_factors.

(** [rets[rets.ticker == t].merge(fac, on="ym", how="inner")
      .dropna(subset=["mret", "mkt_rf", "smb", "hml", "rf"])].
    A factor column named [mret] would be suffixed by the merge, so that
    [dropna] finds no column [mret]. *)
Definition align (t : string) (rets : list ret_row) (fac : frame)
  : result (list (ret_row * list fl)) :=
  let joined := merge_inner (filter (fun r => String.eqb (r_ticker r) t) rets) fac in
  _ <- (if has_col "mret" (columns fac) then Raise (KeyError "mret") else Ok tt) ;;
  _ <- check_cols required_factors (columns fac) ;;
  Ok (filter (complete (columns fac)) joined).

(** [xcols] *)
Definition xcols (carhart : bool) (cols : list string) : list string :=
  ["mkt_rf"; "smb"; "hml"]%string
  ++ (if carhart && has_col "mom" cols then ["mom"%string] else []).

(** [(d["mret"] - d["rf"]).values] *)
Definition excess (cols : list string) (d : list (ret_row * list fl)) : list fl :=
  map (fun r => fsub (r_mret (fst r)) (get_col cols "rf" (snd r))) d.

(** [d[xcols].values] *)
Definition design (cols xs : list string) (d : list (ret_row * list fl))
  : list (list fl) :=
  map (fun r => map (fun c => get_col cols c (snd r)) xs) d.

(** [float(coefs[i])] *)
Definition coef (coefs : list fl) (i : nat) : result fl :=
  match nth_error coefs i with
  | Some c => Ok c
  | None => Raise IndexError
  end.

(** What [main] prints. *)
Inductive event : Type :=
| Info_skip (t : string)
| Summary (t : string) (alpha beta_mkt beta_smb beta_hml : fl) (beta_mom : option fl).

Definition summary (r : result_row) : event :=
  Summary (ticker r) (alpha r) (beta_mkt r) (beta_smb r) (beta_hml r) (beta_mom r).

Inductive outcome : Type :=
| Done
| Raised (e : error).

Record run : Type := {
  final : store;
  printed : list event;
  exit : outcome
}.

Record args : Type := {
  db : string;
  tickers : list string;
  start : string;
  carhart : bool
}.

Section Main.

Variable lstsq : list (list fl) -> list fl -> option (list fl).
Variable to_datetime : string -> option (nat * nat * nat).
Variable fetch_ff3 : option raw_frame.
Variable fetch_mom : option raw_frame.

(** One iteration of the loop over the tickers, up to the [INSERT]:
    [Ok None] when the ticker is skipped. *)
Definition regress (use_mom : bool) (rets : list ret_row) (fac : frame) (t : string)
  : result (option result_row) :=
  d <- align t rets fac ;;
  match d with
  | [] => Ok None
  | d0 :: dr =>
      let xs := xcols use_mom (columns fac) in
      match ols lstsq (excess (columns fac) d) (design (columns fac) xs d) with
      | None => Raise LinAlgError
      | Some (coefs, r2, n) =>
          alpha <- coef coefs 0 ;;
          beta_mkt <- coef coefs 1 ;;
          beta_smb <- coef coefs 2 ;;
          beta_hml <- coef coefs 3 ;;
          beta_mom <- (if (length xs =? 4)%nat
                       then c <- coef coefs 4 ;; Ok (Some c)
                       else Ok None) ;;
          Ok (Some {| ticker := t;
                      start_ym := min_of (r_ym (fst d0)) (map (fun r => r_ym (fst r)) dr);
                      end_ym := max_of (r_ym (fst d0)) (map (fun r => r_ym (fst r)) dr);
                      nobs := n;
                      r2 := r2;
                      alpha := alpha;
                      beta_mkt := beta_mkt;
                      beta_smb := beta_smb;
                      beta_hml := beta_hml;
                      beta_mom := beta_mom |})
      end
  end.

(** The loop: each row is inserted and committed before the next ticker, so
    an exception keeps what was written before it. *)
Fixpoint run_tickers (use_mom : bool) (rets : list ret_row) (fac : frame)
    (ts : list string) (res : list result_row) (out : list event)
  : list result_row * list event * outcome :=
  match ts with
  | [] => (res, out, Done)
  | t :: ts' =>
      match regress use_mom rets fac t with
      | Raise e => (res, out, Raised e)
      | Ok None => run_tickers use_mom rets fac ts' res (out ++ [Info_skip t])
      | Ok (Some row) =>
          run_tickers use_mom rets fac ts' (res ++ [row]) (out ++ [summary row])
      end
  end.

Definition abort (conn : store) (e : error) : run :=
  {| final := conn; printed := []; exit := Raised e |}.

Definition main (a : args) (conn : store) : run :=
  let start_ym := substring 0 7 (start a) in
  match ensure_factors_in_db to_datetime fetch_ff3 fetch_mom conn start_ym with
  | Raise e => abort conn e
  | Ok conn1 =>
      match q_returns conn1 start_ym (tickers a) with
      | Raise e => abort conn1 e
      | Ok [] => abort conn1 NoReturnsFound
      | Ok rets =>
          match q_factors conn1 start_ym with
          | Raise e => abort conn1 e
          | Ok fac =>
              match rows fac with
              | [] => abort conn1 NoFactorsFound
              | _ =>
                  (* CREATE TABLE IF NOT EXISTS factor_reg_results *)
                  let res0 := match factor_reg_results conn1 with
                              | Some r => r
                              | None => []
                              end in
                  let '(res, out, ex) :=
                    run_tickers (carhart a) rets fac
                      (sorted (unique (map r_ticker rets))) res0 [] in
                  {| final := {| factors_monthly := factors_monthly conn1;
                                 vw_monthly_returns := vw_monthly_returns conn1;
                                 factor_reg_results := Some res |};
                     printed := out;
                     exit := ex |}
              end
          end
      end
  end.

End Main.

(** A solver that succeeds: it returns one coefficient per column of the
    matrix it is given, as [np.linalg.lstsq] does when it does not raise. *)
Definition solver_returns (lstsq : list (list fl) -> list fl -> option (list fl)) : Prop :=
  forall X1 y, exists coefs,
    lstsq X1 y = Some coefs /\ length coefs = length (hd [] X1).

(** The time keys of an aligned sample, [d["ym"]]. *)
Definition keys (d : list (ret_row * list fl)) : list string :=
  map (fun r => r_ym (fst r)) d.

(** The rows of [factor_reg_results]; none when the table does not exist. *)
Definition results_of (conn : store) : list result_row :=
  match factor_reg_results conn with
  | Some r => r
  | None => []
  end.

(** The betas of a row, in the order of the [INSERT]. *)
Definition betas (r : result_row) : list fl :=
  [beta_mkt r; beta_smb r; beta_hml r]
  ++ match beta_mom r with Some b => [b] | None => [] end.

(** The sample scenario: factors for the twelve months of 2020, returns of
    one asset for June to December, every value present. *)
Definition months_2020 : list string :=
  ["2020-01"; "2020-02"; "2020-03"; "2020-04"; "2020-05"; "2020-06";
   "2020-07"; "2020-08"; "2020-09"; "2020-10"; "2020-11"; "2020-12"]%string.

Definition scenario_store (mkt smb hml rf ret : string -> Q) : store :=
  {| factors_monthly :=
       Some {| columns := ["mkt_rf"; "smb"; "hml"; "rf"]%string;
               rows := map (fun m => (m, [Fin (mkt m); Fin (smb m); Fin (hml m); Fin (rf m)]))
                           months_2020 |};
     vw_monthly_returns :=
       Some (map (fun m => {| r_ticker := "SPY"; r_ym := m; r_mret := Fin (ret m) |})
                 (skipn 5 months_2020));
     factor_reg_results := None |}.

Definition scenario_args : args :=
  {| db := "data/market.db"; tickers := ["SPY"%string]; start := "2020-01-01";
     carhart := false |}.

(* ------------------------------------------------------------------ *)
(** ** The least-squares problem, on rationals

    What [np.linalg.lstsq] is documented to return on finite input: a vector
    that minimises the squared Euclidean norm of [y - X1 @ coefs]. *)

Definition Qsum (l : list Q) : Q := fold_right Qplus 0 l.

Definition dotQ (row coefs : list Q) : Q := Qsum (zipWith Qmult row coefs).

Definition sq (x : Q) : Q := x * x.

(** Residual sum of squares of the candidate [c]. *)
Definition rss (X1 : list (list Q)) (y c : list Q) : Q :=
  Qsum (map sq (zipWith Qminus y (map (fun row => dotQ row c) X1))).

Definition least_squares (X1 : list (list Q)) (y c : list Q) : Prop :=
  forall c', length c' = length c -> rss X1 y c <= rss X1 y c'.

(** The [k] columns of [X1] are linearly independent. *)
Definition independent (X1 : list (list Q)) (k : nat) : Prop :=
  forall d, length d = k ->
    Forall (fun row => dotQ row d == 0) X1 -> Forall (fun x => x == 0) d.

(** Mean and total sum of squares of a finite series. *)
Definition meanQ (l : list Q) : Q := Qsum l / inject_Z (Z.of_nat (length l)).

Definition ss_totQ (l : list Q) : Q := Qsum (map (fun q => sq (q - meanQ l)) l).

(** [y = a + b . x], row by row. *)
Definition affine (a : Q) (bs : list Q) (X : list (list Q)) : list Q :=
  map (fun row => a + dotQ row bs) X.

(* ------------------------------------------------------------------ *)
(** ** Notions used by the further properties *)



(** Chronological comparison of two months. *)
Definition month_compare (p q : nat * nat) : comparison :=
  match Nat.compare (fst p) (fst q) with
  | Eq => Nat.compare (snd p) (snd q)
  | c => c
  end.

(** The ticker that a printed line is about. *)
Definition event_ticker (e : event) : string :=
  match e with
  | Info_skip t => t
  | Summary t _ _ _ _ _ => t
  end.

(* ------------------------------------------------------------------ *)
(** ** The regression engine over any arithmetic

    [ols] uses numpy for its arithmetic: elementwise [-], [** 2] and [/],
    the reductions [sum()] and [mean()], the product [X1 @ coefs] and the
    comparison [> 0].  An [arith] gives these operations on some type of
    numbers; [Generic.ols] is the function of the source over an [arith].
    Two instances follow: [exact], the rationals with NaN used above, and
    [binary64], IEEE 754 double precision as numpy's [float64]. *)

Record arith : Type := {
  num : Type;
  a_sub : num -> num -> num;
  a_mul : num -> num -> num;
  a_div : num -> num -> num;
  a_gt0 : num -> bool;                                 (* [x > 0] *)
  a_sum : list num -> num;                             (* [arr.sum()] *)
  a_mean : list num -> num;                            (* [arr.mean()] *)
  a_matvec : list (list num) -> list num -> list num;  (* [X1 @ coefs] *)
  a_zero : num;
  a_one : num;
  a_nan : num
}.

Module Generic.
Section WithArith.

Variable A : arith.

(** [np.column_stack([np.ones(len(X)), X])] *)
Definition column_stack_ones (X : list (list (num A))) : list (list (num A)) :=
  map (cons (a_one A)) X.

(** [x ** 2] *)
Definition sq (x : num A) : num A := a_mul A x x.

(** [((y - y.mean()) ** 2).sum()] *)
Definition ss_tot (y : list (num A)) : num A :=
  a_sum A (map (fun v => sq (a_sub A v (a_mean A y))) y).

(** [resid = y - yhat] *)
Definition resid (y yhat : list (num A)) : list (num A) :=
  zipWith (a_sub A) y yhat.

(** [(resid ** 2).sum()] *)
Definition ss_res (y yhat : list (num A)) : num A :=
  a_sum A (map sq (resid y yhat)).

Variable lstsq : list (list (num A)) -> list (num A) -> option (list (num A)).

Definition ols (y : list (num A)) (X : list (list (num A)))
  : option (list (num A) * num A * nat) :=
  let X1 := column_stack_ones X in
  match lstsq X1 y with
  | None => None
  | Some coefs =>
      let yhat := a_matvec A X1 coefs in
      let r2 := if a_gt0 A (ss_tot y)
                then a_sub A (a_one A) (a_div A (ss_res y yhat) (ss_tot y))
                else a_nan A in
      Some (coefs, r2, length y)
  end.

End WithArith.
End Generic.

(** The arithmetic of [fl]. *)
Definition exact : arith :=
  {| num := fl;
     a_sub := fsub; a_mul := fmul; a_div := fdiv;
     a_gt0 := fpos;
     a_sum := fsum;
     a_mean := mean;
     a_matvec := fun X1 coefs => map (fun row => dot row coefs) X1;
     a_zero := Fin 0; a_one := Fin 1; a_nan := NaN |}.

(** [float(n)] for a length [n]: exact below 2^53. *)
Fixpoint float_of_nat (n : nat) : float :=
  match n with
  | O => 0%float
  | S k => PrimFloat.add (float_of_nat k) 1%float
  end.

(** Sequential accumulation from 0. numpy accumulates short arrays in
    sequence and longer ones pairwise, and the matrix product has an order of
    its own; the examples evaluated in [binary64] add equal terms or zeros,
    where the order does not show. *)
Definition float_sum (l : list float) : float :=
  fold_left PrimFloat.add l 0%float.

(** IEEE 754 binary64, the arithmetic of numpy's [float64]. *)
Definition binary64 : arith :=
  {| num := float;
     a_sub := PrimFloat.sub; a_mul := PrimFloat.mul; a_div := PrimFloat.div;
     a_gt0 := fun x => PrimFloat.ltb 0%float x;
     a_sum := float_sum;
     a_mean := fun l => PrimFloat.div (float_sum l) (float_of_nat (length l));
     a_matvec := fun X1 coefs =>
                   map (fun row => float_sum (zipWith PrimFloat.mul row coefs)) X1;
     a_zero := 0%float; a_one := 1%float; a_nan := PrimFloat.nan |}.

(** What the theorems on [Generic.ols] ask of an arithmetic: IEEE 754 and
    exact arithmetic both have [0 * 0 = 0], [0 + ... + 0 = 0], not [0 > 0]
    and [1 - 0 = 1]. *)
Record zero_laws (A : arith) : Prop := {
  mul_zero : a_mul A (a_zero A) (a_zero A) = a_zero A;
  sum_zeros : forall n, a_sum A (repeat (a_zero A) n) = a_zero A;
  gt0_zero : a_gt0 A (a_zero A) = false;
  sub_one_zero : a_sub A (a_one A) (a_zero A) = a_one A
}.

(* ================================================================== *)
(** * Properties *)

(* ------------------------------------------------------------------ *)
(** ** Finite floats compute as rationals *)

Lemma feq_refl x : feq x x.
Proof. destruct x; simpl; [reflexivity | exact I]. Qed.

Lemma fsum_Fin l : fsum (map Fin l) = Fin (Qsum l).
Proof.
  induction l as [|x l IH]; [reflexivity|].
  change (fsum (map Fin (x :: l))) with (fadd (Fin x) (fsum (map Fin l))).
  now rewrite IH.
Qed.

Lemma zipWith_Fin (op : Q -> Q -> Q) l1 l2 :
  zipWith (lift2 op) (map Fin l1) (map Fin l2) = map Fin (zipWith op l1 l2).
Proof.
  unfold zipWith. revert l2.
  induction l1 as [|a l1 IH]; intros [|b l2]; simpl; try reflexivity.
  now rewrite IH.
Qed.

Lemma dot_Fin row c : dot (map Fin row) (map Fin c) = Fin (dotQ row c).
Proof. unfold dot, fmul. now rewrite zipWith_Fin, fsum_Fin. Qed.

Lemma yhat_Fin X1 c :
  map (fun row => dot row (map Fin c)) (map (map Fin) X1)
  = map Fin (map (fun row => dotQ row c) X1).
Proof.
  rewrite !map_map. apply map_ext. intro row. apply dot_Fin.
Qed.

Lemma ss_res_Fin X1 y c :
  ss_res (map Fin y) (map (fun row => dot row (map Fin c)) (map (map Fin) X1))
  = Fin (rss X1 y c).
Proof.
  unfold ss_res, rss, fsub. rewrite yhat_Fin, zipWith_Fin.
  rewrite map_map.
  replace (map (fun x => fsq (Fin x)) (zipWith Qminus y (map (fun row => dotQ row c) X1)))
    with (map Fin (map sq (zipWith Qminus y (map (fun row => dotQ row c) X1))))
    by (rewrite map_map; reflexivity).
  apply fsum_Fin.
Qed.

Lemma column_stack_ones_Fin X :
  column_stack_ones (map (map Fin) X) = map (map Fin) (map (cons 1) X).
Proof.
  unfold column_stack_ones. rewrite !map_map. reflexivity.
Qed.

(* ------------------------------------------------------------------ *)
(** ** Sums of squares *)

Lemma sq_nonneg x : 0 <= sq x.
Proof. unfold sq. nra. Qed.

Lemma sq_zero x : sq x == 0 -> x == 0.
Proof. unfold sq. nra. Qed.

Lemma Qsum_nonneg l : Forall (fun x => 0 <= x) l -> 0 <= Qsum l.
Proof.
  induction 1 as [|x l Hx _ IH]; simpl; lra.
Qed.

Lemma Qsum_zero l :
  Forall (fun x => 0 <= x) l -> Qsum l == 0 -> Forall (fun x => x == 0) l.
Proof.
  induction 1 as [|x l Hx Hl IH]; simpl; intro H; constructor.
  - pose proof (Qsum_nonneg _ Hl). lra.
  - apply IH. pose proof (Qsum_nonneg _ Hl). lra.
Qed.

Lemma Qsum_all_zero l : Forall (fun x => x == 0) l -> Qsum l == 0.
Proof.
  induction 1 as [|x l Hx _ IH]; simpl; lra.
Qed.

Lemma Forall_sq_nonneg l : Forall (fun x => 0 <= x) (map sq l).
Proof.
  apply Forall_forall. intros x Hx. apply in_map_iff in Hx.
  destruct Hx as [z [<- _]]. apply sq_nonneg.
Qed.

Lemma rss_nonneg X1 y c : 0 <= rss X1 y c.
Proof. apply Qsum_nonneg, Forall_sq_nonneg. Qed.

(** A zero residual sum of squares means that every residual is zero. *)
Lemma rss_zero_residuals X1 y c :
  rss X1 y c == 0 ->
  Forall (fun r => r == 0) (zipWith Qminus y (map (fun row => dotQ row c) X1)).
Proof.
  intro H. apply Qsum_zero in H; [|apply Forall_sq_nonneg].
  rewrite Forall_map in H. revert H. apply Forall_impl. intro r. apply sq_zero.
Qed.

(* ------------------------------------------------------------------ *)
(** ** Exact fits *)

Lemma dotQ_cons x row c cs : dotQ (x :: row) (c :: cs) = x * c + dotQ row cs.
Proof. reflexivity. Qed.

Lemma dotQ_comm r c : dotQ r c == dotQ c r.
Proof.
  revert c. induction r as [|x r IH]; intros [|z c]; try reflexivity.
  rewrite !dotQ_cons, IH. ring.
Qed.

(** [X1 @ (c - c') = X1 @ c - X1 @ c'] for vectors of one length. *)
Lemma dotQ_sub row c c' :
  length c = length c' ->
  dotQ row (zipWith Qminus c c') == dotQ row c - dotQ row c'.
Proof.
  revert c c'. induction row as [|x row IH]; intros [|z c] [|z' c'] H;
    try discriminate; try (cbn; ring).
  injection H as H. change (zipWith Qminus (z :: c) (z' :: c'))
    with ((z - z') :: zipWith Qminus c c').
  rewrite !dotQ_cons, (IH _ _ H). ring.
Qed.

(** The true parameters leave no residual. *)
Lemma rss_affine a bs X : rss (map (cons 1) X) (affine a bs X) (a :: bs) == 0.
Proof.
  unfold rss, affine. apply Qsum_all_zero. rewrite Forall_map.
  induction X as [|row X IH]; [constructor|].
  cbn [map zipWith combine fst snd]. constructor.
  - cbv beta. unfold sq. rewrite dotQ_cons. ring.
  - exact IH.
Qed.

Lemma zipWith_sub_zero c c' :
  length c = length c' ->
  Forall (fun x => x == 0) (zipWith Qminus c c') -> Forall2 Qeq c c'.
Proof.
  revert c'. induction c as [|z c IH]; intros [|z' c'] H; try discriminate.
  - constructor.
  - injection H as H. cbn. intro F. inversion F as [|? ? Hz Hr]; subst.
    constructor; [lra | now apply IH].
Qed.

(** A least-squares solution of an exactly affine problem reproduces every
    observation. *)
Lemma least_squares_affine_fits a bs X c :
  least_squares (map (cons 1) X) (affine a bs X) c ->
  length c = S (length bs) ->
  rss (map (cons 1) X) (affine a bs X) c == 0.
Proof.
  intros Hls Hlen.
  pose proof (Hls (a :: bs) (eq_sym Hlen)) as Hle.
  pose proof (rss_affine a bs X) as H0.
  pose proof (rss_nonneg (map (cons 1) X) (affine a bs X) c). lra.
Qed.

Lemma least_squares_affine_unique a bs X c :
  least_squares (map (cons 1) X) (affine a bs X) c ->
  length c = S (length bs) ->
  independent (map (cons 1) X) (S (length bs)) ->
  Forall2 Qeq c (a :: bs).
Proof.
  intros Hls Hlen Hind.
  apply zipWith_sub_zero; [exact Hlen|].
  apply Hind.
  - unfold zipWith. rewrite length_map, length_combine, Hlen. simpl. lia.
  - pose proof (rss_zero_residuals _ _ _ (least_squares_affine_fits a bs X c Hls Hlen)) as Hc.
    pose proof (rss_zero_residuals _ _ _ (rss_affine a bs X)) as Ht.
    clear Hls Hind. unfold affine in *.
    induction X as [|row X IH]; [constructor|].
    cbn [map zipWith combine fst snd] in Hc, Ht.
    inversion Hc as [|? ? Hc1 Hc2]; inversion Ht as [|? ? Ht1 Ht2]; subst.
    cbn [map]. constructor.
    + rewrite dotQ_sub by exact Hlen. lra.
    + apply IH; assumption.
Qed.

(* ------------------------------------------------------------------ *)
(** ** The total sum of squares *)

Lemma of_nat_nonzero n : n <> 0%nat -> ~ inject_Z (Z.of_nat n) == 0.
Proof.
  intros Hn H. unfold Qeq in H. simpl in H. lia.
Qed.

Lemma mean_Fin l : l <> [] -> mean (map Fin l) = Fin (meanQ l).
Proof.
  intro Hl. unfold mean, of_nat, fdiv. rewrite fsum_Fin, length_map.
  destruct (Qeq_bool (inject_Z (Z.of_nat (length l))) 0) eqn:E; [|reflexivity].
  apply Qeq_bool_iff in E. exfalso. revert E. apply of_nat_nonzero.
  destruct l; [congruence | discriminate].
Qed.

Lemma ss_tot_Fin l : l <> [] -> ss_tot (map Fin l) = Fin (ss_totQ l).
Proof.
  intro Hl. unfold ss_tot, ss_totQ. rewrite (mean_Fin l Hl), map_map.
  rewrite <- fsum_Fin, map_map. reflexivity.
Qed.

Lemma ss_tot_nil : ss_tot [] = Fin 0.
Proof. reflexivity. Qed.

Lemma Qsum_constant c l :
  Forall (fun q => q == c) l -> Qsum l == inject_Z (Z.of_nat (length l)) * c.
Proof.
  induction 1 as [|q l Hq _ IH].
  - simpl. ring.
  - cbn [Qsum fold_right length]. fold (Qsum l).
    rewrite Nat2Z.inj_succ, <- Z.add_1_r, inject_Z_plus, IH, Hq. simpl. ring.
Qed.

Lemma meanQ_constant c l :
  l <> [] -> Forall (fun q => q == c) l -> meanQ l == c.
Proof.
  intros Hl H. unfold meanQ. rewrite (Qsum_constant c l H).
  field. apply of_nat_nonzero. destruct l; [congruence | discriminate].
Qed.

Lemma ss_totQ_constant c l :
  l <> [] -> Forall (fun q => q == c) l -> ss_totQ l == 0.
Proof.
  intros Hl H. unfold ss_totQ. apply Qsum_all_zero. rewrite Forall_map.
  pose proof (meanQ_constant c l Hl H) as Hm.
  revert H. apply Forall_impl. intros q Hq. unfold sq. rewrite Hq, Hm. ring.
Qed.

Lemma feq_Fin_inv c y :
  Forall (feq (Fin c)) y -> exists l, y = map Fin l /\ Forall (fun q => q == c) l.
Proof.
  induction 1 as [|u y Hu _ [l [-> Hl]]].
  - exists []. split; [reflexivity | constructor].
  - destruct u as [q|]; [|contradiction]. exists (q :: l). split; [reflexivity|].
    constructor; [symmetry; exact Hu | exact Hl].
Qed.

Lemma feq_NaN_inv y : Forall (feq NaN) y -> y = repeat NaN (length y).
Proof.
  induction 1 as [|u y Hu _ IH]; [reflexivity|].
  destruct u; [contradiction|]. simpl. now rewrite <- IH.
Qed.

Lemma ss_tot_NaN n : fpos (ss_tot (repeat NaN n)) = false.
Proof.
  destruct n; reflexivity.
Qed.

(** A constant series has no positive total sum of squares. *)
Lemma ss_tot_constant v y : Forall (feq v) y -> fpos (ss_tot y) = false.
Proof.
  destruct v as [c|]; intro H.
  - destruct (feq_Fin_inv c y H) as [l [-> Hl]].
    destruct l as [|q l]; [reflexivity|].
    rewrite ss_tot_Fin by discriminate. simpl.
    apply negb_false_iff, Qle_bool_iff.
    rewrite (ss_totQ_constant c (q :: l)); [apply Qle_refl | discriminate | exact Hl].
  - rewrite (feq_NaN_inv y H). apply ss_tot_NaN.
Qed.

(* ------------------------------------------------------------------ *)
(** ** The regression engine *)

Lemma ols_r2_guard lstsq y X coefs :
  lstsq (column_stack_ones X) y = Some coefs ->
  fpos (ss_tot y) = false ->
  ols lstsq y X = Some (coefs, NaN, length y).
Proof.
  intros Hl Hp. unfold ols. now rewrite Hl, Hp.
Qed.

Lemma ols_length lstsq y X coefs r n :
  ols lstsq y X = Some (coefs, r, n) ->
  lstsq (column_stack_ones X) y = Some coefs /\ n = length y.
Proof.
  unfold ols. destruct (lstsq (column_stack_ones X) y) as [c|]; [|discriminate].
  intro H. injection H as -> _ <-. split; reflexivity.
Qed.

(** In exact arithmetic a constant series (finite or NaN, empty or not)
    fails the guard [ss_tot > 0], and [ols] returns [r2 = NaN] for it.  In
    floating point the mean of a constant series can be rounded; what holds
    there is stated for every arithmetic further down. *)
Theorem ols_constant_y_r2_nan lstsq y X coefs :
  lstsq (column_stack_ones X) y = Some coefs ->
  (forall v, Forall (feq v) y -> ols lstsq y X = Some (coefs, NaN, length y))
  /\ (fpos (ss_tot y) = false -> ols lstsq y X = Some (coefs, NaN, length y))
  /\ (exists r, ols lstsq y X = Some (coefs, r, length y)
                /\ (isna r = false -> fpos (ss_tot y) = true)).
Proof.
  intro Hl. split; [|split].
  - intros v Hv. apply ols_r2_guard; [exact Hl | exact (ss_tot_constant v y Hv)].
  - intro Hp. apply ols_r2_guard; assumption.
  - unfold ols. rewrite Hl. destruct (fpos (ss_tot y)).
    + eexists. split; [reflexivity | reflexivity].
    + exists NaN. split; [reflexivity | discriminate].
Qed.

(** A run in exact arithmetic: three equal observations. *)
Lemma ols_constant_y_r2_nan_witness :
  let lstsq := fun (_ : list (list fl)) (_ : list fl) => Some [Fin 5; Fin 0] in
  let y := [Fin 5; Fin 5; Fin 5] in
  let X := [[Fin 1]; [Fin 2]; [Fin 4]] in
  ols lstsq y X = Some ([Fin 5; Fin 0], NaN, 3%nat).
Proof.
  intros lstsq y X.
  apply (proj1 (ols_constant_y_r2_nan lstsq y X [Fin 5; Fin 0] eq_refl) (Fin 5)).
  repeat constructor; reflexivity.
Defined.

(** In exact arithmetic: when [y] is an exact affine function of the
    factor columns, the columns of the design matrix (the column of ones
    prepended to [X]) are linearly independent and [y] is not constant
    ([ss_tot > 0]), a least-squares solution has intercept [a] and slopes
    [bs], and [r2 = 1]. *)
Theorem ols_exact_affine lstsq a bs X c :
  lstsq (column_stack_ones (map (map Fin) X)) (map Fin (affine a bs X))
    = Some (map Fin c) ->
  length c = S (length bs) ->
  least_squares (map (cons 1) X) (affine a bs X) c ->
  independent (map (cons 1) X) (S (length bs)) ->
  fpos (ss_tot (map Fin (affine a bs X))) = true ->
  exists r2,
    ols lstsq (map Fin (affine a bs X)) (map (map Fin) X)
      = Some (map Fin c, r2, length X)
    /\ Forall2 Qeq c (a :: bs)
    /\ feq r2 (Fin 1).
Proof.
  intros Hl Hlen Hls Hind Hpos.
  pose proof (least_squares_affine_fits a bs X c Hls Hlen) as Hfit.
  unfold ols. rewrite Hl, Hpos, column_stack_ones_Fin, ss_res_Fin.
  destruct (ss_tot (map Fin (affine a bs X))) as [s|]; [|discriminate].
  simpl in Hpos. apply negb_true_iff in Hpos.
  assert (Hs : 0 < s).
  { destruct (Qlt_le_dec 0 s) as [|Hle]; [assumption|].
    apply Qle_bool_iff in Hle. congruence. }
  unfold fdiv. destruct (Qeq_bool s 0) eqn:E.
  { apply Qeq_bool_iff in E. lra. }
  eexists. split; [|split].
  - unfold affine. rewrite !length_map. reflexivity.
  - exact (least_squares_affine_unique a bs X c Hls Hlen Hind).
  - simpl. rewrite Hfit. field. lra.
Qed.

(** A run in exact arithmetic: [y = 2 + 3 x] on [x = 1, 2, 3]. *)
Lemma ols_exact_affine_witness :
  let lstsq := fun (_ : list (list fl)) (_ : list fl) => Some [Fin 2; Fin 3] in
  let X := [[1]; [2]; [3]] in
  exists r2,
    ols lstsq (map Fin (affine 2 [3] X)) (map (map Fin) X)
      = Some (map Fin [2; 3], r2, length X)
    /\ Forall2 Qeq [2; 3] [2; 3]
    /\ feq r2 (Fin 1).
Proof.
  intros lstsq X.
  apply (ols_exact_affine lstsq 2 [3] X [2; 3]).
  - reflexivity.
  - reflexivity.
  - intros c' _. apply Qle_trans with 0; [|apply rss_nonneg].
    vm_compute. discriminate.
  - intros d Hd HF.
    destruct d as [|d0 [|d1 [|? ?]]]; try discriminate.
    inversion HF as [|? ? H1 HF']; subst. inversion HF' as [|? ? H2 _]; subst.
    cbn in H1, H2. repeat constructor; lra.
  - vm_compute. reflexivity.
Defined.

(** In exact arithmetic the two hypotheses are needed.  When the slope is
    zero, [y = 1 + 0 x] is constant: the solver returns the exact
    coefficients, and [r2] is NaN, not 1.  When two factor columns coincide,
    [y = 0 + 1 x1 + 0 x2] has the least-squares solution [(0, 1/2, 1/2)],
    the one of least norm, which is not [(0, 1, 0)]. *)
Lemma ols_exact_affine_r2_counterexample :
  (let lstsq := fun (_ : list (list fl)) (_ : list fl) => Some [Fin 1; Fin 0] in
   let X := [[1]; [2]; [3]] in
   least_squares (map (cons 1) X) (affine 1 [0] X) [1; 0]
   /\ independent (map (cons 1) X) 2
   /\ ols lstsq (map Fin (affine 1 [0] X)) (map (map Fin) X)
        = Some (map Fin [1; 0], NaN, 3%nat)
   /\ ~ feq NaN (Fin 1))
  /\ (let c := [0; 1 # 2; 1 # 2] in
      let lstsq := fun (_ : list (list fl)) (_ : list fl) => Some (map Fin c) in
      let X := [[1; 1]; [2; 2]; [3; 3]] in
      least_squares (map (cons 1) X) (affine 0 [1; 0] X) c
      /\ fpos (ss_tot (map Fin (affine 0 [1; 0] X))) = true
      /\ (exists r2, ols lstsq (map Fin (affine 0 [1; 0] X)) (map (map Fin) X)
                       = Some (map Fin c, r2, 3%nat))
      /\ ~ Forall2 Qeq c [0; 1; 0]).
Proof.
  split.
  - intros lstsq X. split; [|split; [|split]].
    + intros c' _. apply Qle_trans with 0; [|apply rss_nonneg].
      vm_compute. discriminate.
    + intros d Hd HF.
      destruct d as [|d0 [|d1 [|? ?]]]; try discriminate.
      inversion HF as [|? ? H1 HF']; subst. inversion HF' as [|? ? H2 _]; subst.
      cbn in H1, H2. repeat constructor; lra.
    + vm_compute. reflexivity.
    + simpl. tauto.
  - intros c lstsq X. split; [|split; [|split]].
    + intros c' _. apply Qle_trans with 0; [|apply rss_nonneg].
      vm_compute. discriminate.
    + vm_compute. reflexivity.
    + eexists. vm_compute. reflexivity.
    + intro F. inversion F as [|? ? ? ? _ F']; subst.
      inversion F' as [|? ? ? ? H _]; subst. vm_compute in H. discriminate.
Qed.

(** One factor: two observations with different [x] make the two columns of
    the design matrix independent. *)
Lemma independent_one_factor X x1 x2 :
  In [x1] X -> In [x2] X -> ~ x1 == x2 -> independent (map (cons 1) X) 2.
Proof.
  intros H1 H2 Hne d Hd HF.
  destruct d as [|d0 [|d1 [|? ?]]]; try discriminate.
  rewrite Forall_forall in HF.
  pose proof (HF (1 :: [x1]) (in_map _ _ _ H1)) as E1.
  pose proof (HF (1 :: [x2]) (in_map _ _ _ H2)) as E2.
  cbn in E1, E2.
  assert (Hd1 : d1 == 0).
  { assert (Hm : (x1 - x2) * d1 == 0) by lra.
    destruct (Qmult_integral _ _ Hm) as [Hx|Hx]; [exfalso; apply Hne; lra | exact Hx]. }
  repeat constructor; [rewrite Hd1 in E1; lra | exact Hd1].
Qed.

(* ------------------------------------------------------------------ *)
(** ** The order on strings *)

Lemma leb_iff a b : String.leb a b = true <-> a = b \/ OrderedTypeEx.String_as_OT.lt a b.
Proof.
  unfold String.leb. destruct (String.compare a b) eqn:E.
  - apply OrderedTypeEx.String_as_OT.cmp_eq in E. tauto.
  - apply OrderedTypeEx.String_as_OT.cmp_lt in E. tauto.
  - split; [discriminate|]. intros [H|H].
    + apply OrderedTypeEx.String_as_OT.cmp_eq in H. unfold OrderedTypeEx.String_as_OT.cmp in H. congruence.
    + apply OrderedTypeEx.String_as_OT.cmp_lt in H. unfold OrderedTypeEx.String_as_OT.cmp in H. congruence.
Qed.

Lemma ltb_iff a b : String.ltb a b = true <-> OrderedTypeEx.String_as_OT.lt a b.
Proof.
  unfold String.ltb. rewrite <- OrderedTypeEx.String_as_OT.cmp_lt. unfold OrderedTypeEx.String_as_OT.cmp.
  destruct (String.compare a b); split; congruence.
Qed.

Lemma leb_refl a : String.leb a a = true.
Proof. apply leb_iff. now left. Qed.

Lemma leb_trans a b c :
  String.leb a b = true -> String.leb b c = true -> String.leb a c = true.
Proof.
  rewrite !leb_iff. intros [->|H1] [->|H2]; auto.
  right. exact (OrderedTypeEx.String_as_OT.lt_trans _ _ _ H1 H2).
Qed.

Lemma leb_neq_ltb a b : String.leb a b = true -> a <> b -> String.ltb a b = true.
Proof.
  rewrite leb_iff, ltb_iff. intros [->|H] Hn; [congruence | exact H].
Qed.

Lemma leb_false_leb a b : String.leb a b = false -> String.leb b a = true.
Proof.
  intro H. destruct (String.leb_total a b) as [H'|H']; congruence.
Qed.

(* ------------------------------------------------------------------ *)
(** ** Sorting *)

Section SortByFacts.
Context {A : Type} (le : A -> A -> bool).
Hypothesis le_total : forall x y, le x y = true \/ le y x = true.
Hypothesis le_trans : forall x y z, le x y = true -> le y z = true -> le x z = true.

Let R x y := le x y = true.

Lemma insert_by_perm x l : Permutation (insert_by le x l) (x :: l).
Proof.
  induction l as [|y l IH]; simpl; [reflexivity|].
  destruct (le x y); [reflexivity|].
  rewrite IH. apply perm_swap.
Qed.

Lemma sort_by_perm l : Permutation (sort_by le l) l.
Proof.
  induction l as [|x l IH]; simpl; [reflexivity|].
  rewrite insert_by_perm. now constructor.
Qed.

Lemma insert_by_sorted x l :
  StronglySorted R l -> StronglySorted R (insert_by le x l).
Proof.
  induction 1 as [|y l Hl IH Hy]; simpl.
  - repeat constructor.
  - destruct (le x y) eqn:E.
    + constructor; [now constructor|].
      constructor; [exact E|].
      revert Hy. apply Forall_impl. intros z Hz. exact (le_trans _ _ _ E Hz).
    + constructor; [exact IH|].
      assert (Hyx : R y x) by (destruct (le_total x y); congruence).
      apply (Permutation_Forall (x := x :: l)).
      * symmetry. apply insert_by_perm.
      * now constructor.
Qed.

Lemma sort_by_sorted l : StronglySorted R (sort_by le l).
Proof.
  induction l as [|x l IH]; simpl; [constructor | now apply insert_by_sorted].
Qed.
End SortByFacts.

Lemma sorted_perm l : Permutation (sorted l) l.
Proof. apply sort_by_perm. Qed.

Lemma sorted_ascending l :
  StronglySorted (fun a b => String.leb a b = true) (sorted l).
Proof. apply sort_by_sorted; [apply String.leb_total | apply leb_trans]. Qed.

Lemma unique_In x l : In x (unique l) <-> In x l.
Proof.
  induction l as [|y l IH]; simpl; [tauto|].
  rewrite filter_In, IH, negb_true_iff, String.eqb_neq.
  destruct (string_dec x y); subst; intuition congruence.
Qed.

Lemma unique_NoDup l : NoDup (unique l).
Proof.
  induction l as [|y l IH]; simpl; constructor.
  - rewrite filter_In, negb_true_iff, String.eqb_neq. tauto.
  - now apply NoDup_filter.
Qed.

Lemma StronglySorted_strict l :
  NoDup l ->
  StronglySorted (fun a b => String.leb a b = true) l ->
  StronglySorted (fun a b => String.ltb a b = true) l.
Proof.
  induction 2 as [|x l Hl IH Hx]; constructor.
  - apply IH. now inversion H.
  - inversion H as [|? ? Hnin _]; subst.
    rewrite Forall_forall in *. intros y Hy.
    apply leb_neq_ltb; [now apply Hx|]. intros ->. contradiction.
Qed.

(** The loop of [main] visits the distinct tickers in strictly ascending
    order. *)
Lemma sorted_unique_ascending l :
  StronglySorted (fun a b => String.ltb a b = true) (sorted (unique l)).
Proof.
  apply StronglySorted_strict; [|apply sorted_ascending].
  apply (Permutation_NoDup (l := unique l));
    [symmetry; apply sorted_perm | apply unique_NoDup].
Qed.

(* ------------------------------------------------------------------ *)
(** ** The factor normaliser *)

Lemma get_col_map (f : fl -> fl) cols c vals :
  f NaN = NaN -> get_col cols c (map f vals) = f (get_col cols c vals).
Proof.
  intro Hf. unfold get_col. destruct (col_index c cols) as [i|]; [|now rewrite Hf].
  rewrite <- Hf at 1. apply map_nth.
Qed.

(** C5. Every row of the normalised table is a row of the merged raw table,
    with the same time key and with every value divided by 100; a finite raw
    value [v] of any column becomes [v / 100].  The rows kept are those from
    [start_ym] on that have the four required factors. *)
Theorem load_factors_ff_decimal to_datetime raw3 fetch_mom start_ym ff :
  load_factors_ff to_datetime (Some raw3) fetch_mom start_ym = Ok ff ->
  let src := with_momentum to_datetime fetch_mom (keyed to_datetime rename_ff3 raw3) in
  columns ff = columns src
  /\ (forall k vals, In (k, vals) (rows ff) ->
        exists raw_vals,
          In (k, raw_vals) (rows src)
          /\ vals = map (fun v => fdiv v (Fin 100)) raw_vals
          /\ forall c v, get_col (columns src) c raw_vals = Fin v ->
                         get_col (columns ff) c vals = Fin (v / 100))
  /\ (forall k raw_vals, In (k, raw_vals) (rows src) ->
        String.leb start_ym k = true ->
        (forall c, In c required_factors ->
                   isna (get_col (columns src) c raw_vals) = false) ->
        In (k, map (fun v => fdiv v (Fin 100)) raw_vals) (rows ff)).
Proof.
  intros H src. unfold load_factors_ff in H. fold src in H.
  destruct (check_cols required_factors (columns (to_decimal src))) as [[]|e] eqn:Hc;
    [|discriminate].
  cbn [bind] in H. injection H as <-. cbn [columns rows to_decimal].
  split; [reflexivity|split].
  - intros k vals Hin.
    apply filter_In in Hin. destruct Hin as [Hin _].
    apply filter_In in Hin. destruct Hin as [Hin _].
    apply in_map_iff in Hin. destruct Hin as [[k' rv] [Heq Hin]].
    cbn [fst snd] in Heq. injection Heq as -> <-.
    exists rv. split; [exact Hin | split; [reflexivity|]].
    intros c v Hv. rewrite get_col_map by reflexivity. now rewrite Hv.
  - intros k rv Hin Hk Hreq.
    apply filter_In. split; [apply filter_In; split|].
    + apply in_map_iff. exists (k, rv). split; [reflexivity | exact Hin].
    + exact Hk.
    + assert (Hn : forall c, In c required_factors ->
                negb (isna (get_col (columns src) c
                              (map (fun v => fdiv v (Fin 100)) rv))) = true).
      { intros c Hcin. rewrite get_col_map by reflexivity.
        specialize (Hreq c Hcin).
        destruct (get_col (columns src) c rv); [reflexivity | discriminate]. }
      cbn [fst snd]. rewrite !Hn by (simpl; tauto). reflexivity.
Qed.

(** A run of C5: two months of raw factors in percent, without momentum. *)
Lemma load_factors_ff_decimal_witness :
  let to_datetime := fun _ : string => @None (nat * nat * nat) in
  let raw3 := {| raw_index := PeriodIndex [Some (2020, 1)%nat; Some (2020, 2)%nat];
                 raw_columns := ["Mkt-RF "; "SMB"; "HML"; "RF"]%string;
                 raw_data := [[Fin 1; Fin 2; Fin 3; Fin 4];
                              [Fin (-5); Fin 6; Fin 7; Fin 8]] |} in
  let ff := {| columns := ["mkt_rf"; "smb"; "hml"; "rf"]%string;
               rows := [("2020-01"%string,
                          [Fin (1 / 100); Fin (2 / 100); Fin (3 / 100); Fin (4 / 100)]);
                        ("2020-02"%string,
                          [Fin (-5 / 100); Fin (6 / 100); Fin (7 / 100); Fin (8 / 100)])] |} in
  let src := with_momentum to_datetime None (keyed to_datetime rename_ff3 raw3) in
  columns ff = columns src
  /\ (forall k vals, In (k, vals) (rows ff) ->
        exists raw_vals,
          In (k, raw_vals) (rows src)
          /\ vals = map (fun v => fdiv v (Fin 100)) raw_vals
          /\ forall c v, get_col (columns src) c raw_vals = Fin v ->
                         get_col (columns ff) c vals = Fin (v / 100))
  /\ (forall k raw_vals, In (k, raw_vals) (rows src) ->
        String.leb "2020-01" k = true ->
        (forall c, In c required_factors ->
                   isna (get_col (columns src) c raw_vals) = false) ->
        In (k, map (fun v => fdiv v (Fin 100)) raw_vals) (rows ff)).
Proof.
  intros to_datetime raw3 ff.
  apply (load_factors_ff_decimal to_datetime raw3 None "2020-01" ff).
  vm_compute. reflexivity.
Defined.




(** C4 fails. An index entry that does not parse becomes [NaT], whose
    string is ['NaT']; that key is not below any [start_ym] that begins with
    a digit, and [dropna] looks at the four factor columns only. The row
    stays in the table under the key ['NaT']. *)
Theorem load_factors_ff_keeps_unparsed_row :
  let to_datetime := fun s : string =>
    if String.eqb s "2020-01-31" then Some (2020, 1, 31)%nat else None in
  let raw3 := {| raw_index := ObjectIndex ["2020-01-31"; "not a date"]%string;
                 raw_columns := ["Mkt-RF"; "SMB"; "HML"; "RF"]%string;
                 raw_data := [[Fin 1; Fin 2; Fin 3; Fin 4];
                              [Fin 5; Fin 6; Fin 7; Fin 8]] |} in
  to_datetime "not a date"%string = None
  /\ exists ff,
       load_factors_ff to_datetime (Some raw3) None "2010-01" = Ok ff
       /\ map fst (rows ff) = ["2020-01"; "NaT"]%string
       /\ In ("NaT"%string, [Fin (5 / 100); Fin (6 / 100); Fin (7 / 100); Fin (8 / 100)])
             (rows ff)
       /\ valid_ym "NaT" = false.
Proof.
  intros to_datetime raw3. split; [reflexivity|].
  eexists. split; [vm_compute; reflexivity|].
  split; [reflexivity|]. split; [|reflexivity].
  right. left. vm_compute. reflexivity.
Qed.

(* ------------------------------------------------------------------ *)
(** ** The factor provisioner *)

(** C6. On a store whose factor table holds a row, [ensure_factors_in_db]
    returns the store as it is, whatever the start month and whatever the
    data source would deliver; a second call therefore changes nothing
    either. *)
Theorem ensure_factors_idempotent
    to_datetime fetch_ff3 fetch_mom to_datetime' fetch_ff3' fetch_mom'
    conn t start_ym start_ym' :
  factors_monthly conn = Some t ->
  rows t <> [] ->
  ensure_factors_in_db to_datetime fetch_ff3 fetch_mom conn start_ym = Ok conn
  /\ (c <- ensure_factors_in_db to_datetime fetch_ff3 fetch_mom conn start_ym ;;
      ensure_factors_in_db to_datetime' fetch_ff3' fetch_mom' c start_ym') = Ok conn.
Proof.
  intros Ht Hne.
  assert (E : forall td f3 fm s, ensure_factors_in_db td f3 fm conn s = Ok conn).
  { intros. unfold ensure_factors_in_db. rewrite Ht.
    destruct (rows t); [congruence | reflexivity]. }
  split; [apply E|]. rewrite E. cbn [bind]. apply E.
Qed.

(** A run of C6: a table of one row, a data source that is down at the first
    call and up at the second. *)
Lemma ensure_factors_idempotent_witness :
  let t := {| columns := ["mkt_rf"; "smb"; "hml"; "rf"]%string;
              rows := [("2020-01"%string, [Fin 1; Fin 2; Fin 3; Fin 4])] |} in
  let conn := {| factors_monthly := Some t;
                 vw_monthly_returns := None;
                 factor_reg_results := None |} in
  let td := fun _ : string => @None (nat * nat * nat) in
  let raw := {| raw_index := PeriodIndex [Some (1999, 1)%nat];
                raw_columns := ["Mkt-RF"; "SMB"; "HML"; "RF"]%string;
                raw_data := [[Fin 9; Fin 9; Fin 9; Fin 9]] |} in
  ensure_factors_in_db td None None conn "2020-01" = Ok conn
  /\ (c <- ensure_factors_in_db td None None conn "2020-01" ;;
      ensure_factors_in_db td (Some raw) None c "1990-01") = Ok conn.
Proof.
  intros t conn td raw.
  apply (ensure_factors_idempotent td None None td (Some raw) None conn t
           "2020-01" "1990-01"); [reflexivity | discriminate].
Defined.

(* ------------------------------------------------------------------ *)
(** ** Extrema of a column of time keys *)

Lemma str_min_cases a b :
  (str_min a b = a \/ str_min a b = b)
  /\ String.leb (str_min a b) a = true /\ String.leb (str_min a b) b = true.
Proof.
  unfold str_min. destruct (String.leb a b) eqn:E.
  - repeat split; auto using leb_refl.
  - repeat split; auto using leb_refl, leb_false_leb.
Qed.

Lemma str_max_cases a b :
  (str_max a b = a \/ str_max a b = b)
  /\ String.leb a (str_max a b) = true /\ String.leb b (str_max a b) = true.
Proof.
  unfold str_max. destruct (String.leb a b) eqn:E.
  - repeat split; auto using leb_refl.
  - repeat split; auto using leb_refl, leb_false_leb.
Qed.

(** [min()] is an element of the column and a lower bound of it. *)
Lemma min_of_spec x l :
  In (min_of x l) (x :: l)
  /\ Forall (fun k => String.leb (min_of x l) k = true) (x :: l).
Proof.
  unfold min_of. revert x. induction l as [|y l IH]; intro x; cbn [fold_left].
  - split; [now left | repeat constructor; apply leb_refl].
  - destruct (IH (str_min x y)) as [Hin Hle].
    destruct (str_min_cases x y) as [Hc [Hx Hy]].
    inversion Hle as [|? ? Hm Hl]; subst. split.
    + destruct Hin as [Hin|Hin]; [|right; now right].
      rewrite <- Hin. destruct Hc as [->| ->]; [now left | right; now left].
    + constructor; [exact (leb_trans _ _ _ Hm Hx)|].
      constructor; [exact (leb_trans _ _ _ Hm Hy) | exact Hl].
Qed.

(** [max()] is an element of the column and an upper bound of it. *)
Lemma max_of_spec x l :
  In (max_of x l) (x :: l)
  /\ Forall (fun k => String.leb k (max_of x l) = true) (x :: l).
Proof.
  unfold max_of. revert x. induction l as [|y l IH]; intro x; cbn [fold_left].
  - split; [now left | repeat constructor; apply leb_refl].
  - destruct (IH (str_max x y)) as [Hin Hle].
    destruct (str_max_cases x y) as [Hc [Hx Hy]].
    inversion Hle as [|? ? Hm Hl]; subst. split.
    + destruct Hin as [Hin|Hin]; [|right; now right].
      rewrite <- Hin. destruct Hc as [->| ->]; [now left | right; now left].
    + constructor; [exact (leb_trans _ _ _ Hx Hm)|].
      constructor; [exact (leb_trans _ _ _ Hy Hm) | exact Hl].
Qed.

(* ------------------------------------------------------------------ *)
(** ** One iteration of the loop *)

Lemma xcols_cases use_mom cols :
  (use_mom && has_col "mom" cols = true
   /\ xcols use_mom cols = ["mkt_rf"; "smb"; "hml"; "mom"]%string)
  \/ (use_mom && has_col "mom" cols = false
      /\ xcols use_mom cols = ["mkt_rf"; "smb"; "hml"]%string).
Proof.
  unfold xcols. destruct (use_mom && has_col "mom" cols); [left | right]; auto.
Qed.

(** What a persisted row is made of. *)
Lemma regress_inv lstsq use_mom rets fac t row :
  regress lstsq use_mom rets fac t = Ok (Some row) ->
  exists d0 dr coefs,
    let d := d0 :: dr in
    let xs := xcols use_mom (columns fac) in
    align t rets fac = Ok d
    /\ lstsq (column_stack_ones (design (columns fac) xs d)) (excess (columns fac) d)
       = Some coefs
    /\ ticker row = t
    /\ start_ym row = min_of (r_ym (fst d0)) (keys dr)
    /\ end_ym row = max_of (r_ym (fst d0)) (keys dr)
    /\ nobs row = length d
    /\ nth_error coefs 0 = Some (alpha row)
    /\ nth_error coefs 1 = Some (beta_mkt row)
    /\ nth_error coefs 2 = Some (beta_smb row)
    /\ nth_error coefs 3 = Some (beta_hml row)
    /\ beta_mom row = (if (length xs =? 4)%nat then nth_error coefs 4 else None).
Proof.
  unfold regress. destruct (align t rets fac) as [[|d0 dr]|e]; cbn [bind];
    try discriminate.
  destruct (ols lstsq _ _) as [[[coefs r] n]|] eqn:Hols; [|discriminate].
  apply ols_length in Hols. destruct Hols as [Hl ->].
  unfold coef.
  destruct (nth_error coefs 0) as [a|] eqn:E0; cbn [bind]; [|discriminate].
  destruct (nth_error coefs 1) as [b1|] eqn:E1; cbn [bind]; [|discriminate].
  destruct (nth_error coefs 2) as [b2|] eqn:E2; cbn [bind]; [|discriminate].
  destruct (nth_error coefs 3) as [b3|] eqn:E3; cbn [bind]; [|discriminate].
  intro H. exists d0, dr, coefs. cbv zeta.
  destruct (length (xcols use_mom (columns fac)) =? 4)%nat.
  - destruct (nth_error coefs 4) as [b4|] eqn:E4; cbn [bind] in H; [|discriminate].
    injection H as <-. cbn. unfold excess. rewrite length_map.
    repeat split; auto.
  - cbn [bind] in H. injection H as <-. cbn. unfold excess. rewrite length_map.
    repeat split; auto.
Qed.

(** With a solver that succeeds, a non-empty sample yields a row. *)
Lemma regress_success lstsq use_mom rets fac t d :
  solver_returns lstsq ->
  align t rets fac = Ok d -> d <> [] ->
  exists row, regress lstsq use_mom rets fac t = Ok (Some row).
Proof.
  intros Hs Ha Hd. unfold regress. rewrite Ha. cbn [bind].
  destruct d as [|d0 dr]; [congruence|].
  unfold ols.
  destruct (Hs (column_stack_ones
                  (design (columns fac) (xcols use_mom (columns fac)) (d0 :: dr)))
               (excess (columns fac) (d0 :: dr))) as [coefs [-> Hlen]].
  cbn [design map column_stack_ones hd length] in Hlen. rewrite length_map in Hlen.
  destruct (xcols_cases use_mom (columns fac)) as [[_ E]|[_ E]];
    rewrite E in *; cbn [length] in Hlen;
    repeat (destruct coefs as [|? coefs]; [discriminate|]);
    cbn; eexists; reflexivity.
Qed.

(* ------------------------------------------------------------------ *)
(** ** The run as a whole *)

Lemma ensure_populated to_datetime fetch_ff3 fetch_mom conn t start_ym :
  factors_monthly conn = Some t -> rows t <> [] ->
  ensure_factors_in_db to_datetime fetch_ff3 fetch_mom conn start_ym = Ok conn.
Proof.
  intros Ht Hne. unfold ensure_factors_in_db. rewrite Ht.
  destruct (rows t); [congruence | reflexivity].
Qed.

(** [ensure_factors_in_db] writes to [factors_monthly] only. *)
Lemma ensure_keeps_results to_datetime fetch_ff3 fetch_mom conn start_ym conn1 :
  ensure_factors_in_db to_datetime fetch_ff3 fetch_mom conn start_ym = Ok conn1 ->
  factor_reg_results conn1 = factor_reg_results conn
  /\ vw_monthly_returns conn1 = vw_monthly_returns conn.
Proof.
  unfold ensure_factors_in_db.
  assert (R : (ff <- load_factors_ff to_datetime fetch_ff3 fetch_mom start_ym ;;
               Ok {| factors_monthly := Some ff;
                     vw_monthly_returns := vw_monthly_returns conn;
                     factor_reg_results := factor_reg_results conn |}) = Ok conn1 ->
              factor_reg_results conn1 = factor_reg_results conn
              /\ vw_monthly_returns conn1 = vw_monthly_returns conn).
  { destruct (load_factors_ff _ _ _ _); cbn [bind]; [|discriminate].
    intro H. injection H as <-. split; reflexivity. }
  destruct (factors_monthly conn) as [t|]; [|exact R].
  destruct (0 <? length (rows t))%nat; [|exact R].
  intro H. injection H as <-. split; reflexivity.
Qed.

(** The shape of a run that gets to the loop. *)
Lemma main_reaches_loop lstsq to_datetime fetch_ff3 fetch_mom a conn conn1 r0 rs fac :
  ensure_factors_in_db to_datetime fetch_ff3 fetch_mom conn (substring 0 7 (start a))
    = Ok conn1 ->
  q_returns conn1 (substring 0 7 (start a)) (tickers a) = Ok (r0 :: rs) ->
  q_factors conn1 (substring 0 7 (start a)) = Ok fac ->
  rows fac <> [] ->
  main lstsq to_datetime fetch_ff3 fetch_mom a conn
  = let '(res, out, ex) :=
      run_tickers lstsq (carhart a) (r0 :: rs) fac
        (sorted (unique (map r_ticker (r0 :: rs)))) (results_of conn1) [] in
    {| final := {| factors_monthly := factors_monthly conn1;
                   vw_monthly_returns := vw_monthly_returns conn1;
                   factor_reg_results := Some res |};
       printed := out;
       exit := ex |}.
Proof.
  intros He Hr Hf Hne. unfold main. rewrite He, Hr, Hf.
  destruct (rows fac); [congruence | reflexivity].
Qed.

(** A ticker with a row: the row is appended and the loop goes on. *)
Lemma run_tickers_row lstsq use_mom rets fac t ts res out row :
  regress lstsq use_mom rets fac t = Ok (Some row) ->
  run_tickers lstsq use_mom rets fac (t :: ts) res out
  = run_tickers lstsq use_mom rets fac ts (res ++ [row]) (out ++ [summary row]).
Proof. intro H. cbn [run_tickers]. now rewrite H. Qed.

(** A ticker without a sample: a notice is printed and the loop goes on. *)
Lemma run_tickers_skip lstsq use_mom rets fac t ts res out :
  regress lstsq use_mom rets fac t = Ok None ->
  run_tickers lstsq use_mom rets fac (t :: ts) res out
  = run_tickers lstsq use_mom rets fac ts res (out ++ [Info_skip t]).
Proof. intro H. cbn [run_tickers]. now rewrite H. Qed.

Lemma regress_observed lstsq use_mom rets fac t d :
  solver_returns lstsq ->
  align t rets fac = Ok d -> d <> [] ->
  exists row,
    regress lstsq use_mom rets fac t = Ok (Some row)
    /\ ticker row = t
    /\ nobs row = length d
    /\ In (start_ym row) (keys d)
    /\ Forall (fun k => String.leb (start_ym row) k = true) (keys d)
    /\ In (end_ym row) (keys d)
    /\ Forall (fun k => String.leb k (end_ym row) = true) (keys d).
Proof.
  intros Hs Ha Hd.
  destruct (regress_success lstsq use_mom rets fac t d Hs Ha Hd) as [row Hrow].
  exists row. split; [exact Hrow|].
  destruct (regress_inv lstsq use_mom rets fac t row Hrow)
    as (d0 & dr & coefs & Ha' & _ & Ht & Hmin & Hmax & Hn & _).
  rewrite Ha in Ha'. injection Ha' as ->.
  destruct (min_of_spec (r_ym (fst d0)) (keys dr)) as [Hi1 Hl1].
  destruct (max_of_spec (r_ym (fst d0)) (keys dr)) as [Hi2 Hl2].
  rewrite <- Hmin in Hi1, Hl1. rewrite <- Hmax in Hi2, Hl2.
  repeat split; assumption.
Qed.

(** C3. With a solver that succeeds, an asset with a non-empty aligned
    sample gets a row, which is appended to the results; its [start_ym] and
    [end_ym] are the least and the greatest time key of the aligned sample
    and its [nobs] is the number of aligned rows.  In the sample scenario
    (factors for 2020-01..2020-12, returns for 2020-06..2020-12, start
    2020-01) the run ends normally with the single row [nobs = 7],
    [start_ym = 2020-06], [end_ym = 2020-12]. *)
Theorem regress_observed_sample lstsq :
  solver_returns lstsq ->
  (forall use_mom rets fac t d,
      align t rets fac = Ok d -> d <> [] ->
      exists row,
        regress lstsq use_mom rets fac t = Ok (Some row)
        /\ ticker row = t
        /\ nobs row = length d
        /\ In (start_ym row) (keys d)
        /\ Forall (fun k => String.leb (start_ym row) k = true) (keys d)
        /\ In (end_ym row) (keys d)
        /\ Forall (fun k => String.leb k (end_ym row) = true) (keys d)
        /\ forall ts res out,
             run_tickers lstsq use_mom rets fac (t :: ts) res out
             = run_tickers lstsq use_mom rets fac ts (res ++ [row])
                 (out ++ [summary row]))
  /\ (forall to_datetime fetch_ff3 fetch_mom mkt smb hml rf ret,
        let r := main lstsq to_datetime fetch_ff3 fetch_mom scenario_args
                   (scenario_store mkt smb hml rf ret) in
        exit r = Done
        /\ exists row,
             results_of (final r) = [row]
             /\ ticker row = "SPY"%string
             /\ nobs row = 7%nat
             /\ start_ym row = "2020-06"%string
             /\ end_ym row = "2020-12"%string).
Proof.
  intro Hs. split.
  - intros use_mom rets fac t d Ha Hd.
    destruct (regress_observed lstsq use_mom rets fac t d Hs Ha Hd)
      as (row & Hrow & H).
    exists row. split; [exact Hrow|].
    repeat (destruct H as [? H]). repeat split; try assumption.
    intros. now apply run_tickers_row.
  - intros to_datetime fetch_ff3 fetch_mom mkt smb hml rf ret r.
    set (conn := scenario_store mkt smb hml rf ret) in *.
    destruct (q_returns conn "2020-01" ["SPY"%string]) as [rets|e] eqn:Hq;
      [|vm_compute in Hq; discriminate].
    destruct (q_factors conn "2020-01") as [fac|e] eqn:Hf;
      [|vm_compute in Hf; discriminate].
    vm_compute in Hq. injection Hq as Hq. vm_compute in Hf. injection Hf as Hf.
    destruct (align "SPY" rets fac) as [d|e] eqn:Ha;
      [|subst rets fac; vm_compute in Ha; discriminate].
    assert (Hd : d <> []).
    { subst rets fac. vm_compute in Ha. injection Ha as <-. discriminate. }
    destruct (regress_success lstsq false rets fac "SPY" d Hs Ha Hd) as [row Hrow].
    destruct (regress_inv lstsq false rets fac "SPY" row Hrow)
      as (d0 & dr & coefs & Ha' & _ & Ht & Hmin & Hmax & Hn & _).
    assert (Hmain : r = {| final := {| factors_monthly := factors_monthly conn;
                                       vw_monthly_returns := vw_monthly_returns conn;
                                       factor_reg_results := Some [row] |};
                           printed := [summary row];
                           exit := Done |}).
    { subst r. destruct rets as [|r0 rs]; [discriminate|].
      rewrite (main_reaches_loop lstsq to_datetime fetch_ff3 fetch_mom
                 scenario_args conn conn r0 rs fac).
      - replace (sorted (unique (map r_ticker (r0 :: rs)))) with ["SPY"%string]
          by (rewrite <- Hq; reflexivity).
        cbn [carhart scenario_args].
        rewrite (run_tickers_row _ _ _ _ _ _ _ _ _ Hrow). reflexivity.
      - eapply ensure_populated; [reflexivity | discriminate].
      - rewrite <- Hq. vm_compute. reflexivity.
      - rewrite <- Hf. vm_compute. reflexivity.
      - rewrite <- Hf. discriminate. }
    rewrite Hmain. split; [reflexivity|]. exists row. split; [reflexivity|].
    split; [exact Ht|].
    rewrite Ha in Ha'. injection Ha' as Hd'.
    rewrite Hmin, Hmax, Hn. subst rets fac. vm_compute in Ha.
    injection Ha as Hv. rewrite Hd' in Hv. injection Hv as <- <-.
    repeat split.
Qed.

(** A run of C3: a solver that returns zeros, constant series. *)
Lemma regress_observed_sample_witness :
  let lstsq := fun (X1 : list (list fl)) (_ : list fl) =>
                 Some (map (fun _ => Fin 0) (hd [] X1)) in
  let td := fun _ : string => @None (nat * nat * nat) in
  let c := fun _ : string => 1 in
  let r := main lstsq td None None scenario_args (scenario_store c c c c c) in
  exit r = Done
  /\ exists row,
       results_of (final r) = [row]
       /\ ticker row = "SPY"%string
       /\ nobs row = 7%nat
       /\ start_ym row = "2020-06"%string
       /\ end_ym row = "2020-12"%string.
Proof.
  intros lstsq td c.
  apply (proj2 (regress_observed_sample lstsq
                  (fun X1 y => ex_intro _ (map (fun _ => Fin 0) (hd [] X1))
                                 (conj eq_refl (length_map _ _))))).
Defined.

(* ------------------------------------------------------------------ *)
(** ** The loop over the tickers *)

(** The rows written by the loop: one per ticker that has a row, in the
    order of the tickers. *)
Lemma run_tickers_rows lstsq use_mom rets fac ts :
  forall res out res' out' ex,
    run_tickers lstsq use_mom rets fac ts res out = (res', out', ex) ->
    exists new,
      res' = res ++ new
      /\ Forall (fun r => In (ticker r) ts
                          /\ regress lstsq use_mom rets fac (ticker r) = Ok (Some r)) new
      /\ forall R : string -> string -> Prop,
           StronglySorted R ts -> StronglySorted R (map ticker new).
Proof.
  induction ts as [|t ts IH]; intros res out res' out' ex H; cbn [run_tickers] in H.
  - injection H as <- _ _. exists []. rewrite app_nil_r.
    repeat split; constructor.
  - destruct (regress lstsq use_mom rets fac t) as [[row|]|e] eqn:Hr.
    + destruct (IH _ _ _ _ _ H) as (new & -> & Hall & Hsort).
      destruct (regress_inv lstsq use_mom rets fac t row Hr)
        as (d0 & dr & coefs & _ & _ & Ht & _).
      exists (row :: new). rewrite <- app_assoc. split; [reflexivity|]. split.
      * constructor; [rewrite Ht; split; [now left | exact Hr]|].
        revert Hall. apply Forall_impl. intros r [Hin Hreg]. split; [now right | exact Hreg].
      * intros R HS. inversion_clear HS as [|? ? HS' Hfa].
        cbn [map]. constructor; [now apply Hsort|].
        rewrite Ht. rewrite Forall_map.
        rewrite Forall_forall in *. intros r Hin. apply Hfa. now apply Hall.
    + destruct (IH _ _ _ _ _ H) as (new & -> & Hall & Hsort).
      exists new. split; [reflexivity|]. split.
      * revert Hall. apply Forall_impl. intros r [Hin Hreg]. split; [now right | exact Hreg].
      * intros R HS. inversion_clear HS. now apply Hsort.
    + injection H as <- _ _. exists []. rewrite app_nil_r.
      repeat split; constructor.
Qed.

(** What is printed is only ever extended. *)
Lemma run_tickers_printed lstsq use_mom rets fac ts :
  forall res out res' out' ex,
    run_tickers lstsq use_mom rets fac ts res out = (res', out', ex) ->
    exists more, out' = out ++ more.
Proof.
  induction ts as [|t ts IH]; intros res out res' out' ex H; cbn [run_tickers] in H.
  - injection H as _ <- _. exists []. now rewrite app_nil_r.
  - destruct (regress lstsq use_mom rets fac t) as [[row|]|e].
    + destruct (IH _ _ _ _ _ H) as [more ->]. rewrite <- app_assoc. eauto.
    + destruct (IH _ _ _ _ _ H) as [more ->]. rewrite <- app_assoc. eauto.
    + injection H as _ <- _. exists []. now rewrite app_nil_r.
Qed.

(** In a run that ends normally, every skipped ticker has its notice. *)
Lemma run_tickers_notices lstsq use_mom rets fac ts :
  forall res out res' out' t,
    run_tickers lstsq use_mom rets fac ts res out = (res', out', Done) ->
    In t ts ->
    regress lstsq use_mom rets fac t = Ok None ->
    In (Info_skip t) out'.
Proof.
  induction ts as [|t0 ts IH]; intros res out res' out' t H Hin Hskip; [contradiction|].
  cbn [run_tickers] in H.
  destruct (string_dec t0 t) as [->|Hne].
  - rewrite Hskip in H.
    destruct (run_tickers_printed _ _ _ _ _ _ _ _ _ _ H) as [more ->].
    apply in_or_app. left. apply in_or_app. right. now left.
  - destruct Hin as [|Hin]; [contradiction|].
    destruct (regress lstsq use_mom rets fac t0) as [[row|]|e];
      [eapply IH; eassumption | eapply IH; eassumption | discriminate].
Qed.

Lemma filter_none {A} (f : A -> bool) l :
  (forall x, In x l -> f x = false) -> filter f l = [].
Proof.
  induction l as [|x l IH]; intro H; [reflexivity|].
  cbn [filter]. rewrite (H x) by now left.
  apply IH. intros; apply H; now right.
Qed.

(** No common time key, no sample. *)
Lemma align_no_overlap t rets fac :
  has_col "mret" (columns fac) = false ->
  check_cols required_factors (columns fac) = Ok tt ->
  (forall r f, In r rets -> r_ticker r = t -> In f (rows fac) -> fst f <> r_ym r) ->
  align t rets fac = Ok [].
Proof.
  intros Hm Hc Hno. unfold align. rewrite Hm, Hc. cbn [bind].
  replace (merge_inner (filter (fun r => String.eqb (r_ticker r) t) rets) fac)
    with (@nil (ret_row * list fl)); [reflexivity|].
  symmetry. unfold merge_inner.
  induction rets as [|r rets IH]; [reflexivity|].
  cbn [filter]. destruct (String.eqb (r_ticker r) t) eqn:E.
  - cbn [flat_map]. rewrite IH by (intros; eapply Hno; eauto; now right).
    rewrite app_nil_r. apply String.eqb_eq in E.
    rewrite filter_none; [reflexivity|].
    intros f Hf. apply String.eqb_neq. apply (Hno r f); auto. now left.
  - apply IH. intros; eapply Hno; eauto; now right.
Qed.

(** C8. An asset whose aligned sample is empty gets no row: the iteration
    prints a notice and the loop goes on with the next asset, with the
    results unchanged.  None of the rows that the loop writes carries its
    ticker, and a run that ends normally has printed its notice. *)
Theorem empty_sample_skipped lstsq use_mom rets fac t :
  align t rets fac = Ok [] ->
  regress lstsq use_mom rets fac t = Ok None
  /\ (forall ts res out,
        run_tickers lstsq use_mom rets fac (t :: ts) res out
        = run_tickers lstsq use_mom rets fac ts res (out ++ [Info_skip t]))
  /\ (forall ts res out res' out' ex,
        run_tickers lstsq use_mom rets fac ts res out = (res', out', ex) ->
        exists new, res' = res ++ new /\ Forall (fun r => ticker r <> t) new)
  /\ (forall ts res out res' out',
        run_tickers lstsq use_mom rets fac ts res out = (res', out', Done) ->
        In t ts -> In (Info_skip t) out').
Proof.
  intro Ha.
  assert (Hskip : regress lstsq use_mom rets fac t = Ok None)
    by (unfold regress; now rewrite Ha).
  split; [exact Hskip|]. split; [|split].
  - intros. now apply run_tickers_skip.
  - intros ts res out res' out' ex H.
    destruct (run_tickers_rows _ _ _ _ _ _ _ _ _ _ H) as (new & -> & Hall & _).
    exists new. split; [reflexivity|].
    revert Hall. apply Forall_impl. intros r [_ Hreg] Heq.
    rewrite Heq, Hskip in Hreg. discriminate.
  - intros ts res out res' out' H Hin.
    exact (run_tickers_notices _ _ _ _ _ _ _ _ _ _ H Hin Hskip).
Qed.

(** A run of C8: returns for 2019 only, factors for 2020 only. *)
Lemma empty_sample_skipped_witness :
  let lstsq := fun (X1 : list (list fl)) (_ : list fl) =>
                 Some (map (fun _ => Fin 0) (hd [] X1)) in
  let rets := [{| r_ticker := "AAA"; r_ym := "2019-01"; r_mret := Fin 1 |}] in
  let fac := {| columns := ["mkt_rf"; "smb"; "hml"; "rf"]%string;
                rows := [("2020-01"%string, [Fin 1; Fin 2; Fin 3; Fin 4])] |} in
  regress lstsq false rets fac "AAA" = Ok None
  /\ run_tickers lstsq false rets fac ["AAA"%string] [] [] = ([], [Info_skip "AAA"], Done).
Proof.
  intros lstsq rets fac.
  destruct (empty_sample_skipped lstsq false rets fac "AAA" eq_refl) as (H1 & H2 & _).
  split; [exact H1|]. rewrite H2. reflexivity.
Defined.

(* ------------------------------------------------------------------ *)
(** ** The order of the tickers *)

Lemma existsb_perm {A} (f : A -> bool) l l' :
  Permutation l l' -> existsb f l = existsb f l'.
Proof.
  intro P. apply eq_true_iff_eq. rewrite !existsb_exists.
  split; intros [x [Hin Hx]]; exists x; split; auto.
  - now apply (Permutation_in _ P).
  - now apply (Permutation_in _ (Permutation_sym P)).
Qed.

(** The query selects by membership in the list of tickers. *)
Lemma q_returns_perm conn start_ym ts ts' :
  Permutation ts ts' -> q_returns conn start_ym ts = q_returns conn start_ym ts'.
Proof.
  intro P. unfold q_returns. destruct (vw_monthly_returns conn); [|reflexivity].
  do 2 f_equal. apply filter_ext. intro r. f_equal. now apply existsb_perm.
Qed.

Lemma results_of_main lstsq to_datetime fetch_ff3 fetch_mom a conn :
  exists new,
    results_of (final (main lstsq to_datetime fetch_ff3 fetch_mom a conn))
    = results_of conn ++ new
    /\ StronglySorted (fun x y => String.ltb x y = true) (map ticker new).
Proof.
  assert (Hnil : forall c, results_of c = results_of conn ->
            exists new, results_of c = results_of conn ++ new
              /\ StronglySorted (fun x y => String.ltb x y = true) (map ticker new)).
  { intros c Hc. exists []. rewrite app_nil_r. split; [exact Hc | constructor]. }
  unfold main.
  destruct (ensure_factors_in_db _ _ _ conn _) as [conn1|e] eqn:He;
    [|now apply Hnil].
  apply ensure_keeps_results in He. destruct He as [He _].
  assert (H1 : results_of conn1 = results_of conn)
    by (unfold results_of; now rewrite He).
  destruct (q_returns conn1 _ _) as [[|r0 rs]|e]; try now apply Hnil.
  destruct (q_factors conn1 _) as [fac|e]; [|now apply Hnil].
  destruct (rows fac); [now apply Hnil|].
  fold (results_of conn1).
  destruct (run_tickers _ _ _ _ _ _ _) as [[res out] ex] eqn:Hrun.
  destruct (run_tickers_rows _ _ _ _ _ _ _ _ _ _ Hrun) as (new & -> & _ & Hsort).
  exists new. cbn [final results_of factor_reg_results]. rewrite H1.
  split; [reflexivity|]. apply Hsort. apply sorted_unique_ascending.
Qed.

(** C9. Two runs that differ only in the order of the requested tickers are
    the same run: same store, same output, same exit.  The rows that a run
    adds to the results come in strictly ascending order of ticker. *)
Theorem main_order_invariant lstsq to_datetime fetch_ff3 fetch_mom a a' conn :
  Permutation (tickers a) (tickers a') ->
  start a = start a' ->
  carhart a = carhart a' ->
  main lstsq to_datetime fetch_ff3 fetch_mom a conn
  = main lstsq to_datetime fetch_ff3 fetch_mom a' conn
  /\ exists new,
       results_of (final (main lstsq to_datetime fetch_ff3 fetch_mom a conn))
       = results_of conn ++ new
       /\ StronglySorted (fun x y => String.ltb x y = true) (map ticker new).
Proof.
  intros P Hs Hc. split; [|apply results_of_main].
  unfold main. rewrite <- Hs, <- Hc.
  destruct (ensure_factors_in_db _ _ _ conn _) as [conn1|e]; [|reflexivity].
  now rewrite (q_returns_perm conn1 (substring 0 7 (start a)) _ _ P).
Qed.

(** A run of C9: two assets, requested in either order. *)
Lemma main_order_invariant_witness :
  let lstsq := fun (X1 : list (list fl)) (_ : list fl) =>
                 Some (map (fun _ => Fin 0) (hd [] X1)) in
  let td := fun _ : string => @None (nat * nat * nat) in
  let conn :=
    {| factors_monthly :=
         Some {| columns := ["mkt_rf"; "smb"; "hml"; "rf"]%string;
                 rows := [("2020-01"%string, [Fin 1; Fin 2; Fin 3; Fin 4]);
                          ("2020-02"%string, [Fin 2; Fin 1; Fin 0; Fin 1])] |};
       vw_monthly_returns :=
         Some [{| r_ticker := "SPY"; r_ym := "2020-01"; r_mret := Fin 5 |};
               {| r_ticker := "AAA"; r_ym := "2020-01"; r_mret := Fin 6 |};
               {| r_ticker := "SPY"; r_ym := "2020-02"; r_mret := Fin 7 |};
               {| r_ticker := "AAA"; r_ym := "2020-02"; r_mret := Fin 9 |}];
       factor_reg_results := None |} in
  let a := {| db := "data/market.db"; tickers := ["SPY"; "AAA"]%string;
              start := "2020-01-01"; carhart := false |} in
  let a' := {| db := "data/market.db"; tickers := ["AAA"; "SPY"]%string;
               start := "2020-01-01"; carhart := false |} in
  (main lstsq td None None a conn = main lstsq td None None a' conn
   /\ exists new,
        results_of (final (main lstsq td None None a conn)) = results_of conn ++ new
        /\ StronglySorted (fun x y => String.ltb x y = true) (map ticker new))
  /\ map ticker (results_of (final (main lstsq td None None a conn)))
     = ["AAA"; "SPY"]%string.
Proof.
  intros lstsq td conn a a'. split.
  - apply (main_order_invariant lstsq td None None a a' conn);
      [apply perm_swap | reflexivity | reflexivity].
  - vm_compute. reflexivity.
Defined.

(* ------------------------------------------------------------------ *)
(** ** Momentum *)

(** C7. A persisted row has a [beta_mom] exactly when the Carhart flag is
    set and the aligned data have a column [mom].  Then the regressors are
    [mkt_rf, smb, hml, mom] and the row has four betas; otherwise the
    regressors are [mkt_rf, smb, hml], the row has three betas and
    [beta_mom] is null.  In both cases the i-th beta is the coefficient
    that the solver returned for the i-th regressor, after the intercept. *)
Theorem momentum_gating lstsq use_mom rets fac t row :
  regress lstsq use_mom rets fac t = Ok (Some row) ->
  let xs := xcols use_mom (columns fac) in
  let gate := use_mom && has_col "mom" (columns fac) in
  (beta_mom row <> None <-> gate = true)
  /\ (gate = true ->
        xs = ["mkt_rf"; "smb"; "hml"; "mom"]%string /\ length (betas row) = 4%nat)
  /\ (gate = false ->
        xs = ["mkt_rf"; "smb"; "hml"]%string
        /\ length (betas row) = 3%nat /\ beta_mom row = None)
  /\ exists d coefs,
       align t rets fac = Ok d
       /\ lstsq (column_stack_ones (design (columns fac) xs d)) (excess (columns fac) d)
          = Some coefs
       /\ nth_error coefs 0 = Some (alpha row)
       /\ forall i, (i < length xs)%nat ->
            nth_error (betas row) i = nth_error coefs (S i).
Proof.
  intros Hrow xs gate.
  destruct (regress_inv lstsq use_mom rets fac t row Hrow)
    as (d0 & dr & coefs & Ha & Hl & _ & _ & _ & _ & H0 & H1 & H2 & H3 & H4).
  fold xs in Hl, H4.
  assert (Hb : forall i, (i < 3)%nat ->
            nth_error [beta_mkt row; beta_smb row; beta_hml row] i
            = nth_error coefs (S i)).
  { intros i Hi. destruct i as [|[|[|i]]];
      [symmetry; exact H1 | symmetry; exact H2 | symmetry; exact H3 | lia]. }
  destruct (xcols_cases use_mom (columns fac)) as [[Hg E]|[Hg E]];
    fold gate in Hg; fold xs in E; rewrite E in H4; cbn [length Nat.eqb] in H4;
    rewrite Hg.
  - assert (H4' : exists b, beta_mom row = Some b /\ nth_error coefs 4 = Some b).
    { destruct (nth_error coefs 4) as [b|] eqn:E4.
      - exists b. split; [exact H4 | reflexivity].
      - exfalso. unfold regress in Hrow. rewrite Ha in Hrow. cbn [bind] in Hrow.
        fold xs in Hrow. rewrite E in Hrow. unfold ols in Hrow.
        rewrite <- E, Hl in Hrow. unfold coef in Hrow.
        rewrite H0, H1, H2, H3 in Hrow. cbn [bind] in Hrow.
        rewrite E in Hrow. cbn [length Nat.eqb] in Hrow.
        rewrite E4 in Hrow. discriminate. }
    destruct H4' as [b [Hb4 Hc4]].
    split; [split; [reflexivity | rewrite Hb4; discriminate]|].
    split; [intros _; split; [exact E | unfold betas; now rewrite Hb4]|].
    split; [discriminate|].
    exists (d0 :: dr), coefs. repeat split; try assumption.
    intros i Hi. rewrite E in Hi. cbn [length] in Hi.
    unfold betas. rewrite Hb4.
    destruct (Nat.eq_dec i 3) as [->|Hne]; [symmetry; exact Hc4|].
    rewrite nth_error_app1 by (cbn; lia). apply Hb. lia.
  - split; [split; [intro Hn; contradiction | discriminate]|].
    split; [discriminate|].
    split; [intros _; split; [exact E | split; [unfold betas; now rewrite H4 | exact H4]]|].
    exists (d0 :: dr), coefs. repeat split; try assumption.
    intros i Hi. rewrite E in Hi. cbn [length] in Hi.
    unfold betas. rewrite H4, app_nil_r. now apply Hb.
Qed.

(** A run of C7: the Carhart flag with a momentum column. *)
Lemma momentum_gating_witness :
  let lstsq := fun (X1 : list (list fl)) (_ : list fl) =>
                 Some (map (fun _ => Fin 0) (hd [] X1)) in
  let rets := [{| r_ticker := "SPY"; r_ym := "2020-01"; r_mret := Fin 5 |};
               {| r_ticker := "SPY"; r_ym := "2020-02"; r_mret := Fin 7 |}] in
  let fac := {| columns := ["mkt_rf"; "smb"; "hml"; "rf"; "mom"]%string;
                rows := [("2020-01"%string, [Fin 1; Fin 2; Fin 3; Fin 4; Fin 5]);
                         ("2020-02"%string, [Fin 2; Fin 1; Fin 0; Fin 1; Fin 3])] |} in
  exists row,
    regress lstsq true rets fac "SPY" = Ok (Some row)
    /\ (beta_mom row <> None <-> true && has_col "mom" (columns fac) = true)
    /\ length (betas row) = 4%nat.
Proof.
  intros lstsq rets fac.
  destruct (regress lstsq true rets fac "SPY") as [[row|]|e] eqn:E;
    [|vm_compute in E; discriminate|vm_compute in E; discriminate].
  exists row. split; [reflexivity|].
  destruct (momentum_gating lstsq true rets fac "SPY" row E) as (H1 & H2 & _).
  split; [exact H1 | exact (proj2 (H2 eq_refl))].
Defined.


Lemma align_inv t rets fac ds :
  align t rets fac = Ok ds ->
  ds = filter (complete (columns fac))
         (merge_inner (filter (fun r => String.eqb (r_ticker r) t) rets) fac).
Proof.
  unfold align. destruct (has_col "mret" (columns fac)); cbn [bind]; [discriminate|].
  destruct (check_cols required_factors (columns fac)); cbn [bind]; [|discriminate].
  intro H. now injection H as <-.
Qed.



(* ================================================================== *)
(** * Further properties of the code *)

(* ------------------------------------------------------------------ *)
(** ** Time keys *)



Lemma ascii_compare_digit a b :
  Ascii.compare (digit a) (digit b) = Nat.compare (a mod 10) (b mod 10).
Proof.
  unfold Ascii.compare, digit.
  pose proof (Nat.mod_upper_bound a 10 ltac:(discriminate)) as Ha.
  pose proof (Nat.mod_upper_bound b 10 ltac:(discriminate)) as Hb.
  assert (E : forall n, (n < 256)%nat -> N_of_ascii (ascii_of_nat n) = N.of_nat n).
  { intros n Hn. rewrite <- (nat_ascii_embedding n Hn) at 2.
    unfold nat_of_ascii. now rewrite N2Nat.id. }
  rewrite !E by lia. rewrite <- Nat2N.inj_compare.
  destruct (Nat.compare_spec (a mod 10) (b mod 10));
    [apply Nat.compare_eq_iff | apply Nat.compare_lt_iff | apply Nat.compare_gt_iff];
    lia.
Qed.

Lemma digits4 y :
  (y < 100 * 100 ->
   y = 1000 * ((y / 1000) mod 10) + 100 * ((y / 100) mod 10)
       + 10 * ((y / 10) mod 10) + y mod 10)%nat.
Proof.
  intro H.
  replace (y / 1000)%nat with (y / 10 / 10 / 10)%nat
    by (rewrite !Nat.Div0.div_div; reflexivity).
  replace (y / 100)%nat with (y / 10 / 10)%nat
    by (rewrite !Nat.Div0.div_div; reflexivity).
  pose proof (Nat.div_mod_eq y 10). pose proof (Nat.div_mod_eq (y / 10) 10).
  pose proof (Nat.div_mod_eq (y / 10 / 10) 10).
  pose proof (Nat.div_mod_eq (y / 10 / 10 / 10) 10).
  pose proof (Nat.mod_upper_bound y 10 ltac:(discriminate)).
  pose proof (Nat.mod_upper_bound (y / 10) 10 ltac:(discriminate)).
  pose proof (Nat.mod_upper_bound (y / 10 / 10) 10 ltac:(discriminate)).
  pose proof (Nat.mod_upper_bound (y / 10 / 10 / 10) 10 ltac:(discriminate)).
  lia.
Qed.

Lemma digits2 m : (m < 100 -> m = 10 * ((m / 10) mod 10) + m mod 10)%nat.
Proof.
  intro H.
  pose proof (Nat.div_mod_eq m 10). pose proof (Nat.div_mod_eq (m / 10) 10).
  pose proof (Nat.mod_upper_bound m 10 ltac:(discriminate)).
  pose proof (Nat.mod_upper_bound (m / 10) 10 ltac:(discriminate)).
  lia.
Qed.

(** Lexicographic comparison of digit sequences is comparison of the
    numbers they write. *)
Lemma compare_digits4 a b c d a' b' c' d' :
  (a < 10 -> b < 10 -> c < 10 -> d < 10 ->
   a' < 10 -> b' < 10 -> c' < 10 -> d' < 10 ->
   match (a ?= a') with
   | Eq => match (b ?= b') with
           | Eq => match (c ?= c') with
                   | Eq => (d ?= d')
                   | r => r
                   end
           | r => r
           end
   | r => r
   end
   = (1000 * a + 100 * b + 10 * c + d ?= 1000 * a' + 100 * b' + 10 * c' + d'))%nat.
Proof.
  intros.
  destruct (Nat.compare_spec a a'); [|symmetry; apply Nat.compare_lt_iff; lia
                                     |symmetry; apply Nat.compare_gt_iff; lia].
  destruct (Nat.compare_spec b b'); [|symmetry; apply Nat.compare_lt_iff; lia
                                     |symmetry; apply Nat.compare_gt_iff; lia].
  destruct (Nat.compare_spec c c'); [|symmetry; apply Nat.compare_lt_iff; lia
                                     |symmetry; apply Nat.compare_gt_iff; lia].
  subst. destruct (Nat.compare_spec d d');
    symmetry; [apply Nat.compare_eq_iff | apply Nat.compare_lt_iff
               | apply Nat.compare_gt_iff]; lia.
Qed.

Lemma compare_digits2 c d c' d' :
  (c < 10 -> d < 10 -> c' < 10 -> d' < 10 ->
   match (c ?= c') with
   | Eq => (d ?= d')
   | r => r
   end
   = (10 * c + d ?= 10 * c' + d'))%nat.
Proof.
  intros.
  destruct (Nat.compare_spec c c'); [|symmetry; apply Nat.compare_lt_iff; lia
                                     |symmetry; apply Nat.compare_gt_iff; lia].
  subst. destruct (Nat.compare_spec d d');
    symmetry; [apply Nat.compare_eq_iff | apply Nat.compare_lt_iff
               | apply Nat.compare_gt_iff]; lia.
Qed.

(** The order of the keys as strings is the order of the months in time;
    in particular different months have different keys. This is what makes
    the filters [ym >= start] chronological. *)
Theorem period_str_compare y m y' m' :
  (y < 100 * 100)%nat -> (y' < 100 * 100)%nat -> (m < 100)%nat -> (m' < 100)%nat ->
  String.compare (period_str (Some (y, m))) (period_str (Some (y', m')))
  = month_compare (y, m) (y', m').
Proof.
  intros Hy Hy' Hm Hm'. unfold period_str, month_compare. cbn [String.compare fst snd].
  rewrite !ascii_compare_digit.
  change (Ascii.compare "-" "-") with Eq. cbv iota.
  rewrite (digits4 y Hy) at 5. rewrite (digits4 y' Hy') at 5.
  rewrite (digits2 m Hm) at 3. rewrite (digits2 m' Hm') at 3.
  pose proof (fun n => Nat.mod_upper_bound n 10 ltac:(discriminate)) as B.
  rewrite <- compare_digits4 by apply B.
  rewrite <- compare_digits2 by apply B.
  repeat (destruct (_ ?= _)%nat; try reflexivity).
Qed.

(** A run of the comparison: December 2019 is before January 2020. *)
Lemma period_str_compare_witness :
  String.compare (period_str (Some (2019, 12)%nat)) (period_str (Some (2020, 1)%nat))
  = month_compare (2019, 12)%nat (2020, 1)%nat.
Proof.
  apply (period_str_compare 2019 12 2020 1);
    apply Nat.ltb_lt; vm_compute; reflexivity.
Defined.

(* ------------------------------------------------------------------ *)
(** ** Loading the factors: momentum, errors, and what comes out *)

Lemma has_col_app c l1 l2 : has_col c (l1 ++ l2) = has_col c l1 || has_col c l2.
Proof. unfold has_col. apply existsb_app. Qed.

Lemma has_col_rename_mom_x c cols :
  c <> "mom"%string -> c <> "mom_x"%string ->
  has_col c (map (fun c' => if String.eqb c' "mom" then "mom_x"%string else c') cols)
  = has_col c cols.
Proof.
  intros H1 H2. unfold has_col. induction cols as [|c' cols IH]; [reflexivity|].
  cbn [map existsb]. rewrite IH. f_equal.
  destruct (String.eqb c' "mom") eqn:E.
  - apply String.eqb_eq in E. subst c'.
    rewrite (proj2 (String.eqb_neq c "mom_x") H2).
    now rewrite (proj2 (String.eqb_neq c "mom") H1).
  - reflexivity.
Qed.

(** Merging the momentum column does not change which of the other columns
    are there. *)
Lemma with_momentum_has_col to_datetime fetch_mom ff3 c :
  c <> "mom"%string -> c <> "mom_x"%string -> c <> "mom_y"%string ->
  has_col c (columns (with_momentum to_datetime fetch_mom ff3)) = has_col c (columns ff3).
Proof.
  intros H1 H2 H3. unfold with_momentum.
  destruct fetch_mom as [rawm|]; [|reflexivity].
  unfold merge_mom. destruct (has_col "mom" (columns (keyed to_datetime rename_mom rawm)));
    [|reflexivity].
  cbn [columns]. destruct (has_col "mom" (columns ff3)).
  - rewrite has_col_app, has_col_rename_mom_x by assumption.
    cbn. rewrite (proj2 (String.eqb_neq c "mom_y") H3). now rewrite !orb_false_r.
  - rewrite has_col_app. cbn.
    rewrite (proj2 (String.eqb_neq c "mom") H1). now rewrite !orb_false_r.
Qed.

Lemma check_cols_momentum to_datetime fetch_mom ff3 :
  check_cols required_factors (columns (with_momentum to_datetime fetch_mom ff3))
  = check_cols required_factors (columns ff3).
Proof.
  unfold required_factors. cbn [check_cols].
  rewrite !with_momentum_has_col by discriminate. reflexivity.
Qed.

(** The momentum series decides neither whether [load_factors_ff] fails nor
    how: with any momentum download, available or not, well-formed or not,
    it raises exactly the exception that it raises without one. *)
Theorem load_factors_ff_momentum_never_fatal to_datetime fetch_ff3 fetch_mom start_ym e :
  load_factors_ff to_datetime fetch_ff3 fetch_mom start_ym = Raise e
  <-> load_factors_ff to_datetime fetch_ff3 None start_ym = Raise e.
Proof.
  unfold load_factors_ff. destruct fetch_ff3 as [raw3|]; [|reflexivity].
  cbn [to_decimal columns].
  rewrite check_cols_momentum.
  change (with_momentum to_datetime None (keyed to_datetime rename_ff3 raw3))
    with (keyed to_datetime rename_ff3 raw3).
  destruct (check_cols required_factors (columns (keyed to_datetime rename_ff3 raw3)));
    cbn [bind]; split; intro H; (discriminate || exact H).
Qed.

Lemma check_cols_ok subset cols :
  check_cols subset cols = Ok tt <-> (forall c, In c subset -> has_col c cols = true).
Proof.
  induction subset as [|c subset IH]; cbn [check_cols].
  - split; [intros _ c [] | reflexivity].
  - destruct (has_col c cols) eqn:E.
    + rewrite IH. split.
      * intros H c' [<-|Hin]; [exact E | now apply H].
      * intros H c' Hin. apply H. now right.
    + split; [discriminate|]. intro H. rewrite (H c) in E by now left. discriminate.
Qed.

Lemma check_cols_raise subset cols e :
  check_cols subset cols = Raise e ->
  exists c, e = KeyError c /\ In c subset /\ has_col c cols = false.
Proof.
  induction subset as [|c subset IH]; cbn [check_cols]; [discriminate|].
  destruct (has_col c cols) eqn:E.
  - intro H. destruct (IH H) as (c' & -> & Hin & Hc). exists c'. auto using in_cons.
  - intro H. injection H as <-. exists c. split; [reflexivity|]. split; [now left | exact E].
Qed.

Lemma Ok_inj {A} (a b : A) : Ok a = Ok b -> a = b.
Proof. congruence. Qed.

(** The rows of a loaded table. *)
Lemma load_factors_ff_rows to_datetime fetch_ff3 fetch_mom start_ym ff :
  load_factors_ff to_datetime fetch_ff3 fetch_mom start_ym = Ok ff ->
  (forall c, In c required_factors -> has_col c (columns ff) = true)
  /\ forall k vals, In (k, vals) (rows ff) ->
       String.leb start_ym k = true
       /\ forall c, In c required_factors ->
            isna (get_col (columns ff) c vals) = false.
Proof.
  unfold load_factors_ff. destruct fetch_ff3 as [raw3|]; [|discriminate].
  cbn [to_decimal columns rows].
  set (src := with_momentum to_datetime fetch_mom (keyed to_datetime rename_ff3 raw3)).
  destruct (check_cols required_factors (columns src)) as [[]|e] eqn:Hc; cbn [bind];
    [|discriminate].
  intro H. apply Ok_inj in H. subst ff. cbn [columns rows].
  split; [now apply check_cols_ok|].
  intros k vals Hin. apply filter_In in Hin. destruct Hin as [Hin Hcomp].
  apply filter_In in Hin. destruct Hin as [_ Hk]. cbn [fst snd] in *.
  split; [exact Hk|]. intros c Hcin.
  rewrite forallb_forall in Hcomp. specialize (Hcomp c Hcin).
  now apply negb_true_iff in Hcomp.
Qed.

(** The exceptions of a load. *)
Lemma load_factors_ff_raises to_datetime fetch_ff3 fetch_mom start_ym e :
  load_factors_ff to_datetime fetch_ff3 fetch_mom start_ym = Raise e ->
  (fetch_ff3 = None /\ e = DataSourceError)
  \/ exists raw3 c,
       fetch_ff3 = Some raw3 /\ e = KeyError c /\ In c required_factors
       /\ has_col c (columns (keyed to_datetime rename_ff3 raw3)) = false.
Proof.
  unfold load_factors_ff. destruct fetch_ff3 as [raw3|].
  - cbn [to_decimal columns]. rewrite check_cols_momentum.
    destruct (check_cols required_factors (columns (keyed to_datetime rename_ff3 raw3)))
      as [[]|e'] eqn:Hc; cbn [bind]; [discriminate|].
    intro H. injection H as <-.
    destruct (check_cols_raise _ _ _ Hc) as (c & -> & Hin & Hno).
    right. exists raw3, c. auto.
  - intro H. injection H as <-. left. auto.
Qed.

(** The outcomes of [load_factors_ff]: [DataSourceError] when the factor
    download fails; otherwise a [KeyError] naming one of [mkt_rf], [smb],
    [hml], [rf] that is not among the renamed columns; otherwise a table.
    Every row of that table has a key from [start_ym] on and a value in
    each of the four columns. *)
Theorem load_factors_ff_outcome to_datetime fetch_ff3 fetch_mom start_ym :
  match load_factors_ff to_datetime fetch_ff3 fetch_mom start_ym with
  | Raise e =>
      (fetch_ff3 = None /\ e = DataSourceError)
      \/ exists raw3 c,
           fetch_ff3 = Some raw3 /\ e = KeyError c /\ In c required_factors
           /\ has_col c (columns (keyed to_datetime rename_ff3 raw3)) = false
  | Ok ff =>
      (forall c, In c required_factors -> has_col c (columns ff) = true)
      /\ forall k vals, In (k, vals) (rows ff) ->
           String.leb start_ym k = true
           /\ forall c, In c required_factors ->
                isna (get_col (columns ff) c vals) = false
  end.
Proof.
  destruct (load_factors_ff to_datetime fetch_ff3 fetch_mom start_ym) as [ff|e] eqn:E.
  - exact (load_factors_ff_rows _ _ _ _ _ E).
  - exact (load_factors_ff_raises _ _ _ _ _ E).
Qed.

(* ------------------------------------------------------------------ *)
(** ** The left join with the momentum series *)

Lemma filter_key_unique {B} (l : list (string * B)) k :
  NoDup (map fst l) ->
  (length (filter (fun r => String.eqb (fst r) k) l) <= 1)%nat.
Proof.
  induction l as [|a l IH]; intro H; [cbn; lia|].
  cbn [map] in H. inversion H as [|? ? Hnin Hnd]; subst.
  cbn [filter]. destruct (String.eqb (fst a) k) eqn:E; [|now apply IH].
  apply String.eqb_eq in E. rewrite filter_none; [cbn; lia|].
  intros x Hx. apply String.eqb_neq. intros Hk. apply Hnin.
  rewrite E, <- Hk. now apply in_map.
Qed.

(** The left join loses no month of the factor table: every factor row is
    in the merged table with one value appended.  When the momentum series
    has one row per month, the merged table has exactly the rows of the
    factor table, in their order, each with one value appended. *)
Theorem merge_mom_keeps_months ff3 mom m :
  merge_mom ff3 mom = Some m ->
  (forall r, In r (rows ff3) -> exists x, In (fst r, snd r ++ [x]) (rows m))
  /\ (NoDup (map fst (rows mom)) ->
      Forall2 (fun r r' => fst r' = fst r /\ exists x, snd r' = snd r ++ [x])
              (rows ff3) (rows m)).
Proof.
  unfold merge_mom. destruct (has_col "mom" (columns mom)); [|discriminate].
  intro H. injection H as <-. cbn [rows].
  set (right := map (fun r => (fst r, get_col (columns mom) "mom" (snd r))) (rows mom)).
  split.
  - intros r Hr.
    destruct (filter (fun r0 => String.eqb (fst r0) (fst r)) right) as [|a ms] eqn:E.
    + exists NaN. apply in_flat_map. exists r. split; [exact Hr|].
      rewrite E. now left.
    + exists (snd a). apply in_flat_map. exists r. split; [exact Hr|].
      rewrite E. now left.
  - intro Hnd.
    assert (Hnd' : NoDup (map fst right)).
    { unfold right. rewrite map_map. cbn [fst]. exact Hnd. }
    induction (rows ff3) as [|r l IH]; [constructor|].
    cbn [flat_map].
    pose proof (filter_key_unique right (fst r) Hnd') as Hlen.
    destruct (filter (fun r0 => String.eqb (fst r0) (fst r)) right) as [|a [|b ms]].
    + cbn [app]. constructor; [|exact IH]. split; [reflexivity | now exists NaN].
    + cbn [map app]. constructor; [|exact IH]. split; [reflexivity | now exists (snd a)].
    + cbn [length] in Hlen. lia.
Qed.

(** A run of the join: momentum for one of two months. *)
Lemma merge_mom_keeps_months_witness :
  let ff3 := {| columns := ["mkt_rf"; "smb"; "hml"; "rf"]%string;
                rows := [("2020-01"%string, [Fin 1; Fin 2; Fin 3; Fin 4]);
                         ("2020-02"%string, [Fin 5; Fin 6; Fin 7; Fin 8])] |} in
  let mom := {| columns := ["mom"%string];
                rows := [("2020-02"%string, [Fin 9])] |} in
  let m := {| columns := ["mkt_rf"; "smb"; "hml"; "rf"; "mom"]%string;
              rows := [("2020-01"%string, [Fin 1; Fin 2; Fin 3; Fin 4; NaN]);
                       ("2020-02"%string, [Fin 5; Fin 6; Fin 7; Fin 8; Fin 9])] |} in
  (forall r, In r (rows ff3) -> exists x, In (fst r, snd r ++ [x]) (rows m))
  /\ (NoDup (map fst (rows mom)) ->
      Forall2 (fun r r' => fst r' = fst r /\ exists x, snd r' = snd r ++ [x])
              (rows ff3) (rows m)).
Proof.
  intros ff3 mom m. apply (merge_mom_keeps_months ff3 mom m). reflexivity.
Defined.

(* ------------------------------------------------------------------ *)
(** ** The aligned sample *)

Lemma align_In t rets fac d r vals :
  align t rets fac = Ok d ->
  In (r, vals) d ->
  In r rets /\ r_ticker r = t /\ In (r_ym r, vals) (rows fac)
  /\ complete (columns fac) (r, vals) = true.
Proof.
  intro Ha. rewrite (align_inv _ _ _ _ Ha).
  rewrite filter_In. unfold merge_inner. rewrite in_flat_map.
  intros [[l [Hl Hin]] Hc]. apply filter_In in Hl. destruct Hl as [Hl Ht].
  apply in_map_iff in Hin. destruct Hin as [[k v] [Heq Hf]].
  apply filter_In in Hf. destruct Hf as [Hf Hk]. cbn [fst snd] in *.
  injection Heq as -> ->. apply String.eqb_eq in Ht, Hk. subst k.
  repeat split; assumption.
Qed.

(** The aligned sample of a ticker consists of exactly the pairs of one of
    its return rows and a factor row of the same month that have a value in
    [mret], [mkt_rf], [smb], [hml] and [rf]. *)
Theorem align_rows t rets fac d :
  align t rets fac = Ok d ->
  forall r vals,
    In (r, vals) d
    <-> In r rets /\ r_ticker r = t /\ In (r_ym r, vals) (rows fac)
        /\ complete (columns fac) (r, vals) = true.
Proof.
  intros Ha r vals. split; [exact (align_In t rets fac d r vals Ha)|].
  rewrite (align_inv _ _ _ _ Ha).
  rewrite filter_In. unfold merge_inner. rewrite in_flat_map.
  intros (Hr & Ht & Hf & Hc). split; [|exact Hc].
  exists r. split.
  - apply filter_In. split; [exact Hr | now apply String.eqb_eq].
  - apply in_map_iff. exists (r_ym r, vals). split; [reflexivity|].
    apply filter_In. split; [exact Hf | apply String.eqb_refl].
Qed.

(** A run: one return row that meets its factor row. *)
Lemma align_rows_witness :
  let r := {| r_ticker := "SPY"; r_ym := "2020-01"; r_mret := Fin 5 |} in
  let vals := [Fin 1; Fin 2; Fin 3; Fin 4] in
  let fac := {| columns := ["mkt_rf"; "smb"; "hml"; "rf"]%string;
                rows := [("2020-01"%string, vals)] |} in
  In (r, vals) [(r, vals)]
  <-> In r [r] /\ r_ticker r = "SPY"%string /\ In (r_ym r, vals) (rows fac)
      /\ complete (columns fac) (r, vals) = true.
Proof.
  intros r vals fac.
  apply (align_rows "SPY" [r] fac [(r, vals)] eq_refl r vals).
Defined.





(** With one factor row per month, the join cannot multiply observations:
    the aligned sample, and with it [nobs], is at most the number of return
    rows of the ticker. *)
Theorem sample_size_bound lstsq use_mom t rets fac d :
  NoDup (map fst (rows fac)) ->
  align t rets fac = Ok d ->
  (length d <= length (filter (fun r => String.eqb (r_ticker r) t) rets))%nat
  /\ forall row, regress lstsq use_mom rets fac t = Ok (Some row) ->
       (nobs row <= length (filter (fun r => String.eqb (r_ticker r) t) rets))%nat.
Proof.
  intros Hnd Ha.
  assert (Hd : (length d <= length (filter (fun r => String.eqb (r_ticker r) t) rets))%nat).
  { rewrite (align_inv _ _ _ _ Ha).
    etransitivity; [apply filter_length_le|].
    unfold merge_inner.
    induction (filter (fun r => String.eqb (r_ticker r) t) rets) as [|l ls IH];
      [cbn; lia|].
    cbn [flat_map]. rewrite length_app, length_map.
    pose proof (filter_key_unique (rows fac) (r_ym l) Hnd). cbn [length]. lia. }
  split; [exact Hd|].
  intros row Hrow.
  destruct (regress_inv lstsq use_mom rets fac t row Hrow)
    as (d0 & dr & coefs & Ha' & _ & _ & _ & _ & Hn & _).
  rewrite Ha in Ha'. injection Ha' as ->. now rewrite Hn.
Qed.

(** A run of the bound: one return row, two factor months. *)
Lemma sample_size_bound_witness :
  let lstsq := fun (X1 : list (list fl)) (_ : list fl) =>
                 Some (map (fun _ => Fin 0) (hd [] X1)) in
  let r := {| r_ticker := "SPY"; r_ym := "2020-01"; r_mret := Fin 5 |} in
  let fac := {| columns := ["mkt_rf"; "smb"; "hml"; "rf"]%string;
                rows := [("2020-01"%string, [Fin 1; Fin 2; Fin 3; Fin 4]);
                         ("2020-02"%string, [Fin 2; Fin 1; Fin 0; Fin 1])] |} in
  (length [(r, [Fin 1; Fin 2; Fin 3; Fin 4])]
   <= length (filter (fun r' => String.eqb (r_ticker r') "SPY") [r]))%nat
  /\ forall row, regress lstsq false [r] fac "SPY" = Ok (Some row) ->
       (nobs row <= length (filter (fun r' => String.eqb (r_ticker r') "SPY") [r]))%nat.
Proof.
  intros lstsq r fac.
  apply (sample_size_bound lstsq false "SPY" [r] fac).
  - repeat constructor; cbn; intuition discriminate.
  - reflexivity.
Defined.

(* ------------------------------------------------------------------ *)
(** ** The exceptions and the effects of a run *)

Lemma align_raises t rets fac e :
  align t rets fac = Raise e -> exists c, e = KeyError c.
Proof.
  unfold align. destruct (has_col "mret" (columns fac)); cbn [bind].
  - intro H. injection H as <-. eauto.
  - destruct (check_cols required_factors (columns fac)) eqn:E; cbn [bind];
      [discriminate|].
    intro H. injection H as <-.
    destruct (check_cols_raise _ _ _ E) as (c & -> & _). eauto.
Qed.

(** The exceptions that the body of the loop can raise. *)
Lemma regress_raises lstsq use_mom rets fac t e :
  regress lstsq use_mom rets fac t = Raise e ->
  e = LinAlgError \/ e = IndexError \/ exists c, e = KeyError c.
Proof.
  unfold regress. destruct (align t rets fac) as [[|d0 dr]|e'] eqn:Ha; cbn [bind].
  - discriminate.
  - destruct (ols lstsq _ _) as [[[coefs r] n]|]; [|intro H; injection H as <-; auto].
    unfold coef.
    repeat match goal with
    | |- context [nth_error coefs ?i] =>
        destruct (nth_error coefs i); cbn [bind];
        [|intro H; injection H as <-; auto]
    | |- context [if ?b then _ else _] => destruct b; cbn [bind]
    end; discriminate.
  - intro H. injection H as <-. right. right. exact (align_raises _ _ _ _ Ha).
Qed.

Lemma run_tickers_raises lstsq use_mom rets fac ts :
  forall res out res' out' e,
    run_tickers lstsq use_mom rets fac ts res out = (res', out', Raised e) ->
    e = LinAlgError \/ e = IndexError \/ exists c, e = KeyError c.
Proof.
  induction ts as [|t ts IH]; intros res out res' out' e H; cbn [run_tickers] in H.
  - discriminate.
  - destruct (regress lstsq use_mom rets fac t) as [[row|]|e'] eqn:Hr.
    + exact (IH _ _ _ _ _ H).
    + exact (IH _ _ _ _ _ H).
    + injection H as _ _ <-. exact (regress_raises _ _ _ _ _ _ Hr).
Qed.

(** A run that ends with a failed download, a missing table or view, no
    returns or no factors has printed nothing and has left the results
    table as it was, not even created. *)
Theorem main_fatal_before_results lstsq to_datetime fetch_ff3 fetch_mom a conn e :
  exit (main lstsq to_datetime fetch_ff3 fetch_mom a conn) = Raised e ->
  e = DataSourceError \/ e = DatabaseError \/ e = NoReturnsFound \/ e = NoFactorsFound ->
  printed (main lstsq to_datetime fetch_ff3 fetch_mom a conn) = []
  /\ factor_reg_results (final (main lstsq to_datetime fetch_ff3 fetch_mom a conn))
     = factor_reg_results conn.
Proof.
  unfold main.
  destruct (ensure_factors_in_db _ _ _ conn _) as [conn1|e1] eqn:He;
    [|intros; split; reflexivity].
  apply ensure_keeps_results in He. destruct He as [He _].
  destruct (q_returns conn1 _ _) as [[|r0 rs]|e2];
    try (intros; split; [reflexivity | exact He]).
  destruct (q_factors conn1 _) as [fac|e3];
    [|intros; split; [reflexivity | exact He]].
  destruct (rows fac); [intros; split; [reflexivity | exact He]|].
  destruct (run_tickers _ _ _ _ _ _ _) as [[res out] ex] eqn:Hrun.
  cbn [exit]. intros -> Hcase. exfalso.
  destruct (run_tickers_raises _ _ _ _ _ _ _ _ _ _ Hrun) as [->|[->|[c ->]]];
    destruct Hcase as [H|[H|[H|H]]]; discriminate.
Qed.

(** A run on a store without the view of returns. *)
Lemma main_fatal_before_results_witness :
  let lstsq := fun (X1 : list (list fl)) (_ : list fl) =>
                 Some (map (fun _ => Fin 0) (hd [] X1)) in
  let td := fun _ : string => @None (nat * nat * nat) in
  let conn := {| factors_monthly :=
                   Some {| columns := ["mkt_rf"; "smb"; "hml"; "rf"]%string;
                           rows := [("2020-01"%string, [Fin 1; Fin 2; Fin 3; Fin 4])] |};
                 vw_monthly_returns := None;
                 factor_reg_results := None |} in
  printed (main lstsq td None None scenario_args conn) = []
  /\ factor_reg_results (final (main lstsq td None None scenario_args conn)) = None.
Proof.
  intros lstsq td conn.
  apply (main_fatal_before_results lstsq td None None scenario_args conn DatabaseError).
  - reflexivity.
  - right. left. reflexivity.
Defined.

(** A run never writes to the view of returns, and it leaves a factor table
    that has a row as it is. *)
Theorem main_preserves_inputs lstsq to_datetime fetch_ff3 fetch_mom a conn :
  vw_monthly_returns (final (main lstsq to_datetime fetch_ff3 fetch_mom a conn))
  = vw_monthly_returns conn
  /\ forall t, factors_monthly conn = Some t -> rows t <> [] ->
       factors_monthly (final (main lstsq to_datetime fetch_ff3 fetch_mom a conn))
       = Some t.
Proof.
  assert (G : forall conn1,
            ensure_factors_in_db to_datetime fetch_ff3 fetch_mom conn
              (substring 0 7 (start a)) = Ok conn1 ->
            vw_monthly_returns conn1 = vw_monthly_returns conn
            /\ forall t, factors_monthly conn = Some t -> rows t <> [] ->
                 factors_monthly conn1 = Some t).
  { intros conn1 He. split; [exact (proj2 (ensure_keeps_results _ _ _ _ _ _ He))|].
    intros t Ht Hne.
    rewrite (ensure_populated to_datetime fetch_ff3 fetch_mom conn t _ Ht Hne) in He.
    injection He as <-. exact Ht. }
  unfold main.
  destruct (ensure_factors_in_db _ _ _ conn _) as [conn1|e1] eqn:He;
    [|split; [reflexivity | intros; assumption]].
  specialize (G conn1 eq_refl).
  destruct (q_returns conn1 _ _) as [[|r0 rs]|e2]; try exact G.
  destruct (q_factors conn1 _) as [fac|e3]; [|exact G].
  destruct (rows fac); [exact G|].
  destruct (run_tickers _ _ _ _ _ _ _) as [[res out] ex]. exact G.
Qed.

(* ------------------------------------------------------------------ *)
(** ** What a run writes and prints *)

(** The rows that the query of returns delivers. *)
Lemma q_returns_In conn start_ym ts rets :
  q_returns conn start_ym ts = Ok rets ->
  forall r, In r rets ->
    String.leb start_ym (r_ym r) = true /\ In (r_ticker r) ts.
Proof.
  unfold q_returns. destruct (vw_monthly_returns conn) as [v|]; [|discriminate].
  intro H. injection H as <-. intros r Hr.
  apply (Permutation_in _ (sort_by_perm _ _)) in Hr.
  apply filter_In in Hr. destruct Hr as [_ Hr].
  apply andb_true_iff in Hr. destruct Hr as [H1 H2]. split; [exact H1|].
  apply existsb_exists in H2. destruct H2 as [x [Hx E]].
  apply String.eqb_eq in E. now subst.
Qed.

(** A persisted row counts at least one observation, its range is not
    reversed, and both ends are months of return rows of its ticker. *)
Lemma regress_row_facts lstsq use_mom rets fac t row :
  regress lstsq use_mom rets fac t = Ok (Some row) ->
  (1 <= nobs row)%nat
  /\ String.leb (start_ym row) (end_ym row) = true
  /\ (exists r, In r rets /\ r_ticker r = t /\ r_ym r = start_ym row)
  /\ (exists r, In r rets /\ r_ticker r = t /\ r_ym r = end_ym row).
Proof.
  intro Hrow.
  destruct (regress_inv lstsq use_mom rets fac t row Hrow)
    as (d0 & dr & coefs & Ha & _ & _ & Hmin & Hmax & Hn & _).
  destruct (min_of_spec (r_ym (fst d0)) (keys dr)) as [Hi1 Hl1].
  destruct (max_of_spec (r_ym (fst d0)) (keys dr)) as [Hi2 _].
  rewrite <- Hmin in Hi1, Hl1. rewrite <- Hmax in Hi2.
  assert (K : forall k, In k (keys (d0 :: dr)) ->
            exists r, In r rets /\ r_ticker r = t /\ r_ym r = k).
  { intros k Hk. unfold keys in Hk. apply in_map_iff in Hk.
    destruct Hk as [[r vals] [<- Hin]].
    apply (align_In t rets fac _ r vals Ha) in Hin. destruct Hin as (H1 & H2 & _).
    exists r. auto. }
  split; [rewrite Hn; cbn [length]; lia|]. split; [|split].
  - rewrite Forall_forall in Hl1. apply Hl1. exact Hi2.
  - apply K. exact Hi1.
  - apply K. exact Hi2.
Qed.

(** Every row that a run adds to the results is for a requested ticker,
    counts at least one observation, and has
    [start[:7] <= start_ym <= end_ym]. *)
Theorem main_rows_well_formed lstsq to_datetime fetch_ff3 fetch_mom a conn :
  exists new,
    results_of (final (main lstsq to_datetime fetch_ff3 fetch_mom a conn))
    = results_of conn ++ new
    /\ Forall (fun r => In (ticker r) (tickers a)
                        /\ (1 <= nobs r)%nat
                        /\ String.leb (substring 0 7 (start a)) (start_ym r) = true
                        /\ String.leb (start_ym r) (end_ym r) = true) new.
Proof.
  assert (Hnil : forall c, results_of c = results_of conn ->
            exists new, results_of c = results_of conn ++ new
              /\ Forall (fun r => In (ticker r) (tickers a)
                         /\ (1 <= nobs r)%nat
                         /\ String.leb (substring 0 7 (start a)) (start_ym r) = true
                         /\ String.leb (start_ym r) (end_ym r) = true) new).
  { intros c Hc. exists []. rewrite app_nil_r. split; [exact Hc | constructor]. }
  unfold main.
  destruct (ensure_factors_in_db _ _ _ conn _) as [conn1|e] eqn:He;
    [|now apply Hnil].
  apply ensure_keeps_results in He. destruct He as [He _].
  assert (H1 : results_of conn1 = results_of conn)
    by (unfold results_of; now rewrite He).
  destruct (q_returns conn1 _ _) as [[|r0 rs]|e] eqn:Hq; try now apply Hnil.
  destruct (q_factors conn1 _) as [fac|e]; [|now apply Hnil].
  destruct (rows fac); [now apply Hnil|].
  fold (results_of conn1).
  destruct (run_tickers _ _ _ _ _ _ _) as [[res out] ex] eqn:Hrun.
  destruct (run_tickers_rows _ _ _ _ _ _ _ _ _ _ Hrun) as (new & -> & Hall & _).
  exists new. cbn [final results_of factor_reg_results]. rewrite H1.
  split; [reflexivity|].
  revert Hall. apply Forall_impl. intros r [_ Hreg].
  destruct (regress_row_facts _ _ _ _ _ _ Hreg) as (Hn & Hse & [r1 (Hr1 & Ht1 & Hk1)] & _).
  destruct (q_returns_In _ _ _ _ Hq r1 Hr1) as [Hs Hin].
  rewrite Ht1 in Hin. rewrite Hk1 in Hs. auto.
Qed.

(** In a loop that ends normally every ticker has printed one line, in the
    order of the loop. *)
Lemma run_tickers_events lstsq use_mom rets fac ts :
  forall res out res' out',
    run_tickers lstsq use_mom rets fac ts res out = (res', out', Done) ->
    map event_ticker out' = map event_ticker out ++ ts.
Proof.
  induction ts as [|t ts IH]; intros res out res' out' H; cbn [run_tickers] in H.
  - injection H as _ <-. now rewrite app_nil_r.
  - destruct (regress lstsq use_mom rets fac t) as [[row|]|e] eqn:Hr; [| |discriminate].
    + rewrite (IH _ _ _ _ H), map_app, <- app_assoc. cbn [map app].
      destruct (regress_inv lstsq use_mom rets fac t row Hr)
        as (d0 & dr & coefs & _ & _ & Ht & _).
      unfold summary. cbn [event_ticker]. now rewrite Ht.
    + rewrite (IH _ _ _ _ H), map_app, <- app_assoc. reflexivity.
Qed.

(** A run that ends normally has printed exactly one line, summary or
    notice, for each ticker that has returns from the start month on, in
    ascending order of ticker. *)
Theorem main_one_line_per_ticker lstsq to_datetime fetch_ff3 fetch_mom a conn :
  exit (main lstsq to_datetime fetch_ff3 fetch_mom a conn) = Done ->
  exists conn1 rets,
    ensure_factors_in_db to_datetime fetch_ff3 fetch_mom conn (substring 0 7 (start a))
      = Ok conn1
    /\ q_returns conn1 (substring 0 7 (start a)) (tickers a) = Ok rets
    /\ map event_ticker (printed (main lstsq to_datetime fetch_ff3 fetch_mom a conn))
       = sorted (unique (map r_ticker rets)).
Proof.
  unfold main.
  destruct (ensure_factors_in_db _ _ _ conn _) as [conn1|e1]; [|discriminate].
  destruct (q_returns conn1 _ _) as [[|r0 rs]|e2] eqn:Hq; try discriminate.
  destruct (q_factors conn1 _) as [fac|e3]; [|discriminate].
  destruct (rows fac); [discriminate|].
  destruct (run_tickers _ _ _ _ _ _ _) as [[res out] ex] eqn:Hrun.
  cbn [exit printed]. intros ->.
  exists conn1, (r0 :: rs). split; [reflexivity|]. split; [exact Hq|].
  exact (run_tickers_events _ _ _ _ _ _ _ _ _ Hrun).
Qed.

(** A run with two assets, one of which has no month in common with the
    factors. *)
Lemma main_one_line_per_ticker_witness :
  let lstsq := fun (X1 : list (list fl)) (_ : list fl) =>
                 Some (map (fun _ => Fin 0) (hd [] X1)) in
  let td := fun _ : string => @None (nat * nat * nat) in
  let conn :=
    {| factors_monthly :=
         Some {| columns := ["mkt_rf"; "smb"; "hml"; "rf"]%string;
                 rows := [("2020-01"%string, [Fin 1; Fin 2; Fin 3; Fin 4])] |};
       vw_monthly_returns :=
         Some [{| r_ticker := "SPY"; r_ym := "2020-01"; r_mret := Fin 5 |};
               {| r_ticker := "AAA"; r_ym := "2020-03"; r_mret := Fin 6 |}];
       factor_reg_results := None |} in
  let a := {| db := "data/market.db"; tickers := ["SPY"; "AAA"]%string;
              start := "2020-01-01"; carhart := false |} in
  exists conn1 rets,
    ensure_factors_in_db td None None conn (substring 0 7 (start a)) = Ok conn1
    /\ q_returns conn1 (substring 0 7 (start a)) (tickers a) = Ok rets
    /\ map event_ticker (printed (main lstsq td None None a conn))
       = sorted (unique (map r_ticker rets)).
Proof.
  intros lstsq td conn a.
  apply (main_one_line_per_ticker lstsq td None None a conn).
  vm_compute. reflexivity.
Defined.

(* ------------------------------------------------------------------ *)
(** ** The Carhart flag without a momentum column *)

Lemma regress_without_mom lstsq rets fac t :
  has_col "mom" (columns fac) = false ->
  regress lstsq true rets fac t = regress lstsq false rets fac t.
Proof.
  intro H. unfold regress, xcols. now rewrite H.
Qed.

Lemma run_tickers_without_mom lstsq rets fac ts :
  has_col "mom" (columns fac) = false ->
  forall res out,
    run_tickers lstsq true rets fac ts res out
    = run_tickers lstsq false rets fac ts res out.
Proof.
  intro H. induction ts as [|t ts IH]; intros res out; cbn [run_tickers];
    [reflexivity|].
  rewrite (regress_without_mom lstsq rets fac t H).
  destruct (regress lstsq false rets fac t) as [[row|]|e]; auto.
Qed.

(** On a store whose factor table has rows but no column [mom], asking for
    the Carhart model changes nothing: the run is the three-factor run. *)
Theorem carhart_without_momentum lstsq to_datetime fetch_ff3 fetch_mom a a' conn t :
  factors_monthly conn = Some t ->
  rows t <> [] ->
  has_col "mom" (columns t) = false ->
  tickers a = tickers a' ->
  start a = start a' ->
  main lstsq to_datetime fetch_ff3 fetch_mom a conn
  = main lstsq to_datetime fetch_ff3 fetch_mom a' conn.
Proof.
  intros Ht Hne Hmom Hts Hst. unfold main. rewrite <- Hts, <- Hst.
  rewrite (ensure_populated to_datetime fetch_ff3 fetch_mom conn t _ Ht Hne).
  destruct (q_returns conn _ _) as [[|r0 rs]|e]; try reflexivity.
  unfold q_factors. rewrite Ht.
  set (fac := {| columns := columns t; rows := _ |}).
  destruct (rows fac); [reflexivity|].
  assert (E : forall b ts res out,
            run_tickers lstsq b (r0 :: rs) fac ts res out
            = run_tickers lstsq false (r0 :: rs) fac ts res out).
  { intros [|] ts res out; [|reflexivity].
    now apply run_tickers_without_mom. }
  now rewrite (E (carhart a)), (E (carhart a')).
Qed.

(** A run: the same request with and without the flag. *)
Lemma carhart_without_momentum_witness :
  let lstsq := fun (X1 : list (list fl)) (_ : list fl) =>
                 Some (map (fun _ => Fin 0) (hd [] X1)) in
  let td := fun _ : string => @None (nat * nat * nat) in
  let c := fun _ : string => 1 in
  let a' := {| db := "data/market.db"; tickers := ["SPY"%string];
               start := "2020-01-01"; carhart := true |} in
  main lstsq td None None scenario_args (scenario_store c c c c c)
  = main lstsq td None None a' (scenario_store c c c c c).
Proof.
  intros lstsq td c a'.
  eapply (carhart_without_momentum lstsq td None None scenario_args a');
    [reflexivity | discriminate | reflexivity | reflexivity | reflexivity].
Defined.

(* ------------------------------------------------------------------ *)
(** ** Provisioning an absent or empty factor table *)

(** After [ensure_factors_in_db] has returned, the factor table exists.
    Either it had a row and the store is as before, or it was absent or
    empty and is now the freshly loaded table, every row of which is from
    [start_ym] on and has the four factors; the other tables are
    untouched.  When it raises, the table was absent or empty and it raises
    what [load_factors_ff] raised. *)
Theorem ensure_factors_outcome to_datetime fetch_ff3 fetch_mom conn start_ym :
  match ensure_factors_in_db to_datetime fetch_ff3 fetch_mom conn start_ym with
  | Ok conn1 =>
      vw_monthly_returns conn1 = vw_monthly_returns conn
      /\ factor_reg_results conn1 = factor_reg_results conn
      /\ exists t, factors_monthly conn1 = Some t
           /\ ((factors_monthly conn = Some t /\ rows t <> [] /\ conn1 = conn)
               \/ ((forall t0, factors_monthly conn = Some t0 -> rows t0 = [])
                   /\ load_factors_ff to_datetime fetch_ff3 fetch_mom start_ym = Ok t
                   /\ forall k vals, In (k, vals) (rows t) ->
                        String.leb start_ym k = true
                        /\ forall c, In c required_factors ->
                             isna (get_col (columns t) c vals) = false))
  | Raise e =>
      load_factors_ff to_datetime fetch_ff3 fetch_mom start_ym = Raise e
      /\ (forall t, factors_monthly conn = Some t -> rows t = [])
  end.
Proof.
  unfold ensure_factors_in_db.
  assert (R : forall (Hempty : forall t, factors_monthly conn = Some t -> rows t = []),
            match
              (ff <- load_factors_ff to_datetime fetch_ff3 fetch_mom start_ym ;;
               Ok {| factors_monthly := Some ff;
                     vw_monthly_returns := vw_monthly_returns conn;
                     factor_reg_results := factor_reg_results conn |})
            with
            | Ok conn1 =>
                vw_monthly_returns conn1 = vw_monthly_returns conn
                /\ factor_reg_results conn1 = factor_reg_results conn
                /\ exists t, factors_monthly conn1 = Some t
                     /\ ((factors_monthly conn = Some t /\ rows t <> [] /\ conn1 = conn)
                         \/ ((forall t0, factors_monthly conn = Some t0 -> rows t0 = [])
                             /\ load_factors_ff to_datetime fetch_ff3 fetch_mom start_ym = Ok t
                             /\ forall k vals, In (k, vals) (rows t) ->
                                  String.leb start_ym k = true
                                  /\ forall c, In c required_factors ->
                                       isna (get_col (columns t) c vals) = false))
            | Raise e =>
                load_factors_ff to_datetime fetch_ff3 fetch_mom start_ym = Raise e
                /\ (forall t, factors_monthly conn = Some t -> rows t = [])
            end).
  { intro Hempty.
    destruct (load_factors_ff to_datetime fetch_ff3 fetch_mom start_ym) as [ff|e] eqn:EL;
      cbn [bind].
    - cbn. split; [reflexivity|]. split; [reflexivity|].
      exists ff. split; [reflexivity|]. right. split; [exact Hempty|].
      split; [reflexivity|].
      exact (proj2 (load_factors_ff_rows _ _ _ _ _ EL)).
    - split; [reflexivity | exact Hempty]. }
  destruct (factors_monthly conn) as [t|] eqn:Ht.
  - destruct (rows t) as [|r l] eqn:Hr.
    + apply R. intros t' E. injection E as <-. exact Hr.
    + cbn. split; [reflexivity|]. split; [reflexivity|].
      exists t. split; [exact Ht|]. left. split; [reflexivity|].
      split; [rewrite Hr; discriminate | reflexivity].
  - apply R. intros t' E. discriminate.
Qed.

Lemma ensure_table_exists to_datetime fetch_ff3 fetch_mom conn start_ym conn1 :
  ensure_factors_in_db to_datetime fetch_ff3 fetch_mom conn start_ym = Ok conn1 ->
  exists t, factors_monthly conn1 = Some t.
Proof.
  unfold ensure_factors_in_db.
  assert (R : (ff <- load_factors_ff to_datetime fetch_ff3 fetch_mom start_ym ;;
               Ok {| factors_monthly := Some ff;
                     vw_monthly_returns := vw_monthly_returns conn;
                     factor_reg_results := factor_reg_results conn |}) = Ok conn1 ->
              exists t, factors_monthly conn1 = Some t).
  { destruct (load_factors_ff _ _ _ _) as [ff|]; cbn [bind]; [|discriminate].
    intro H. injection H as <-. now exists ff. }
  destruct (factors_monthly conn) as [t|] eqn:Ht; [|exact R].
  destruct (0 <? length (rows t))%nat; [|exact R].
  intro H. injection H as <-. now exists t.
Qed.

Lemma ensure_raises to_datetime fetch_ff3 fetch_mom conn start_ym e :
  ensure_factors_in_db to_datetime fetch_ff3 fetch_mom conn start_ym = Raise e ->
  load_factors_ff to_datetime fetch_ff3 fetch_mom start_ym = Raise e.
Proof.
  unfold ensure_factors_in_db.
  assert (R : (ff <- load_factors_ff to_datetime fetch_ff3 fetch_mom start_ym ;;
               Ok {| factors_monthly := Some ff;
                     vw_monthly_returns := vw_monthly_returns conn;
                     factor_reg_results := factor_reg_results conn |}) = Raise e ->
              load_factors_ff to_datetime fetch_ff3 fetch_mom start_ym = Raise e).
  { destruct (load_factors_ff _ _ _ _) as [ff|]; cbn [bind]; [discriminate|].
    intro H. injection H as <-. reflexivity. }
  destruct (factors_monthly conn) as [t|]; [|exact R].
  destruct (0 <? length (rows t))%nat; [discriminate | exact R].
Qed.

(** A run can end with [DatabaseError] only because the view of returns
    does not exist: the factor table is there once provisioning has
    returned. *)
Theorem main_database_error lstsq to_datetime fetch_ff3 fetch_mom a conn :
  exit (main lstsq to_datetime fetch_ff3 fetch_mom a conn) = Raised DatabaseError ->
  vw_monthly_returns conn = None.
Proof.
  unfold main.
  destruct (ensure_factors_in_db _ _ _ conn _) as [conn1|e1] eqn:He.
  - destruct (ensure_table_exists _ _ _ _ _ _ He) as [t Ht].
    destruct (ensure_keeps_results _ _ _ _ _ _ He) as [_ Hv].
    unfold q_returns, q_factors. rewrite Hv, Ht.
    destruct (vw_monthly_returns conn) as [v|]; [|reflexivity].
    destruct (sort_by _ (filter _ v)) as [|r0 rs]; [discriminate|].
    cbn [rows]. destruct (sort_by _ (filter _ (rows t))); [discriminate|].
    destruct (run_tickers _ _ _ _ _ _ _) as [[res out] ex] eqn:Hrun.
    cbn [exit]. intros ->.
    destruct (run_tickers_raises _ _ _ _ _ _ _ _ _ _ Hrun) as [H|[H|[c H]]];
      discriminate.
  - cbn [abort exit]. intro H. injection H as ->.
    apply ensure_raises in He.
    destruct (load_factors_ff_raises _ _ _ _ _ He) as [[_ H]|(raw3 & c & _ & H & _)];
      discriminate.
Qed.

(** A run on a store without the view. *)
Lemma main_database_error_witness :
  let lstsq := fun (X1 : list (list fl)) (_ : list fl) =>
                 Some (map (fun _ => Fin 0) (hd [] X1)) in
  let td := fun _ : string => @None (nat * nat * nat) in
  let conn := {| factors_monthly :=
                   Some {| columns := ["mkt_rf"; "smb"; "hml"; "rf"]%string;
                           rows := [("2020-01"%string, [Fin 1; Fin 2; Fin 3; Fin 4])] |};
                 vw_monthly_returns := None;
                 factor_reg_results := None |} in
  vw_monthly_returns conn = None.
Proof.
  intros lstsq td conn.
  apply (main_database_error lstsq td None None scenario_args conn). reflexivity.
Defined.

(* ------------------------------------------------------------------ *)
(** ** A NaN among the regressors *)

Lemma fsum_nan l : In NaN l -> fsum l = NaN.
Proof.
  induction l as [|x l IH]; [contradiction|].
  intros [->|Hin]; [reflexivity|].
  change (fsum (x :: l)) with (fadd x (fsum l)). rewrite (IH Hin).
  now destruct x.
Qed.

Lemma zipWith_nan_l (op : Q -> Q -> Q) l1 l2 k :
  nth_error l1 k = Some NaN -> (k < length l2)%nat ->
  nth_error (zipWith (lift2 op) l1 l2) k = Some NaN.
Proof.
  unfold zipWith. revert l1 l2.
  induction k as [|k IH]; intros [|a l1] [|b l2] H Hk; try discriminate;
    cbn [length] in Hk; try lia.
  - injection H as ->. reflexivity.
  - cbn [combine map nth_error]. apply IH; [exact H | lia].
Qed.

Lemma zipWith_nan_r (op : Q -> Q -> Q) l1 l2 k :
  nth_error l2 k = Some NaN -> (k < length l1)%nat ->
  nth_error (zipWith (lift2 op) l1 l2) k = Some NaN.
Proof.
  unfold zipWith. revert l1 l2.
  induction k as [|k IH]; intros [|a l1] [|b l2] H Hk; try discriminate;
    cbn [length] in Hk; try lia.
  - injection H as ->. cbn. now destruct a.
  - cbn [combine map nth_error]. apply IH; [exact H | lia].
Qed.

(** A NaN in a regressor that has a coefficient, in a row that has an
    observation, makes [r2] NaN whatever the solver returned: the fitted
    value of that row is NaN, and so is the residual sum of squares.  Rows
    with a missing momentum value have this effect on a Carhart
    regression. *)
Theorem ols_nan_regressor lstsq y X coefs i row j :
  lstsq (column_stack_ones X) y = Some coefs ->
  nth_error X i = Some row ->
  (i < length y)%nat ->
  nth_error row j = Some NaN ->
  (S j < length coefs)%nat ->
  ols lstsq y X = Some (coefs, NaN, length y).
Proof.
  intros Hl Hrow Hi Hj Hc. unfold ols. rewrite Hl.
  destruct (fpos (ss_tot y)); [|reflexivity].
  assert (Hhat : nth_error (map (fun r => dot r coefs) (column_stack_ones X)) i
                 = Some NaN).
  { unfold column_stack_ones. rewrite map_map, nth_error_map, Hrow. cbn [option_map].
    f_equal. unfold dot. apply fsum_nan.
    apply (nth_error_In _ (S j)). apply zipWith_nan_l; [exact Hj | exact Hc]. }
  assert (Hres : ss_res y (map (fun r => dot r coefs) (column_stack_ones X)) = NaN).
  { unfold ss_res. apply fsum_nan. apply in_map_iff. exists NaN.
    split; [reflexivity|].
    apply (nth_error_In _ i). apply zipWith_nan_r; [exact Hhat | exact Hi]. }
  rewrite Hres. reflexivity.
Qed.

(** A run: the second observation has no momentum value. *)
Lemma ols_nan_regressor_witness :
  let lstsq := fun (X1 : list (list fl)) (_ : list fl) =>
                 Some (map (fun _ => Fin 0) (hd [] X1)) in
  let y := [Fin 1; Fin 3; Fin 2] in
  let X := [[Fin 1; Fin 2; Fin 3; Fin 4];
            [Fin 2; Fin 1; Fin 0; NaN];
            [Fin 0; Fin 1; Fin 1; Fin 2]] in
  ols lstsq y X = Some ([Fin 0; Fin 0; Fin 0; Fin 0; Fin 0], NaN, 3%nat).
Proof.
  intros lstsq y X.
  apply (ols_nan_regressor lstsq y X [Fin 0; Fin 0; Fin 0; Fin 0; Fin 0] 1
           [Fin 2; Fin 1; Fin 0; NaN] 3).
  - reflexivity.
  - reflexivity.
  - cbn. lia.
  - reflexivity.
  - cbn. lia.
Defined.

(* ================================================================== *)
(** * The regression engine in floating point

    The properties of [r2] below hold in every arithmetic with the
    [zero_laws], so in IEEE 754 binary64 as in exact arithmetic; the
    examples and counterexamples are evaluated in [binary64]. *)

(** [ols] above is [Generic.ols] in exact arithmetic. *)
Lemma ols_exact_instance lstsq y X : ols lstsq y X = Generic.ols exact lstsq y X.
Proof. reflexivity. Qed.

Lemma exact_zero_laws : zero_laws exact.
Proof.
  split; try reflexivity.
  induction n as [|n IH]; [reflexivity|].
  cbn [repeat]. cbn [a_sum exact] in *.
  change (fsum (a_zero exact :: repeat (a_zero exact) n))
    with (fadd (a_zero exact) (fsum (repeat (a_zero exact) n))).
  rewrite IH. reflexivity.
Qed.

Lemma binary64_sum_zeros n : float_sum (repeat 0%float n) = 0%float.
Proof.
  unfold float_sum. induction n as [|n IH]; [reflexivity|].
  cbn [repeat fold_left].
  change (PrimFloat.add 0%float 0%float) with 0%float. exact IH.
Qed.

Lemma binary64_zero_laws : zero_laws binary64.
Proof.
  split; try reflexivity. exact binary64_sum_zeros.
Qed.

Section AnyArithmetic.

Variable A : arith.
Hypothesis laws : zero_laws A.
Variable lstsq : list (list (num A)) -> list (num A) -> option (list (num A)).

Lemma generic_guard_false y X coefs :
  lstsq (Generic.column_stack_ones A X) y = Some coefs ->
  a_gt0 A (Generic.ss_tot A y) = false ->
  Generic.ols A lstsq y X = Some (coefs, a_nan A, length y).
Proof.
  intros Hl Hg. unfold Generic.ols. now rewrite Hl, Hg.
Qed.

Lemma generic_guard_true y X coefs :
  lstsq (Generic.column_stack_ones A X) y = Some coefs ->
  a_gt0 A (Generic.ss_tot A y) = true ->
  Generic.ols A lstsq y X
  = Some (coefs,
          a_sub A (a_one A)
            (a_div A
               (Generic.ss_res A y (a_matvec A (Generic.column_stack_ones A X) coefs))
               (Generic.ss_tot A y)),
          length y).
Proof.
  intros Hl Hg. unfold Generic.ols. now rewrite Hl, Hg.
Qed.

(** Squares of zeros sum to zero. *)
Lemma sum_sq_zeros (f : num A -> num A) l :
  Forall (fun v => f v = a_zero A) l ->
  a_sum A (map (fun v => Generic.sq A (f v)) l) = a_zero A.
Proof.
  intro H.
  replace (map (fun v => Generic.sq A (f v)) l) with (repeat (a_zero A) (length l)).
  - apply (sum_zeros A laws).
  - induction H as [|v l Hv _ IH]; [reflexivity|].
    cbn [length repeat map]. rewrite Hv, <- IH. unfold Generic.sq.
    now rewrite (mul_zero A laws).
Qed.

(** A series that equals its computed mean entry by entry has total sum of
    squares zero. *)
Lemma generic_ss_tot_zero y :
  Forall (fun v => a_sub A v (a_mean A y) = a_zero A) y ->
  Generic.ss_tot A y = a_zero A.
Proof.
  intro H. unfold Generic.ss_tot.
  exact (sum_sq_zeros (fun v => a_sub A v (a_mean A y)) y H).
Qed.


End AnyArithmetic.

(** C2, as amended. Whenever the solver returns, [ols] returns: with
    [r2 = NaN] when the computed total sum of squares is not strictly
    positive, and with [1 - ss_res / ss_tot] only when it is; the quotient is
    formed under the guard [ss_tot > 0] and nowhere else.  A series that
    equals its computed mean entry by entry (a constant [y] whose mean is
    computed without rounding error) has [ss_tot = 0] and so [r2 = NaN]. *)
Theorem ols_degenerate_r2 (A : arith)
    (lstsq : list (list (num A)) -> list (num A) -> option (list (num A)))
    y X coefs :
  zero_laws A ->
  lstsq (Generic.column_stack_ones A X) y = Some coefs ->
  (a_gt0 A (Generic.ss_tot A y) = false ->
     Generic.ols A lstsq y X = Some (coefs, a_nan A, length y))
  /\ (a_gt0 A (Generic.ss_tot A y) = true ->
        Generic.ols A lstsq y X
        = Some (coefs,
                a_sub A (a_one A)
                  (a_div A
                     (Generic.ss_res A y
                        (a_matvec A (Generic.column_stack_ones A X) coefs))
                     (Generic.ss_tot A y)),
                length y))
  /\ (Forall (fun v => a_sub A v (a_mean A y) = a_zero A) y ->
        Generic.ols A lstsq y X = Some (coefs, a_nan A, length y)).
Proof.
  intros laws Hl. split; [|split].
  - now apply generic_guard_false.
  - now apply generic_guard_true.
  - intro Hy. apply generic_guard_false; [exact Hl|].
    rewrite (generic_ss_tot_zero A laws y Hy). exact (gt0_zero A laws).
Qed.

(** A run of C2 in binary64: [y = 1.0, 1.0, 1.0] has mean exactly 1.0. *)
Lemma ols_degenerate_r2_witness :
  let lstsq := fun (_ : list (list float)) (_ : list float) =>
                 Some [1%float; 0%float] in
  let y := [1%float; 1%float; 1%float] in
  let X := [[1%float]; [2%float]; [3%float]] in
  Generic.ols binary64 lstsq y X = Some ([1%float; 0%float], PrimFloat.nan, 3%nat).
Proof.
  intros lstsq y X.
  apply (proj2 (proj2 (ols_degenerate_r2 binary64 lstsq y X [1%float; 0%float]
                         binary64_zero_laws eq_refl))).
  repeat constructor.
Defined.

(** C2 as stated fails in binary64: for the constant series
    [y = 0.1, 0.1, 0.1] the sum 0.30000000000000004 divided by 3 is
    0.10000000000000002, not 0.1, so that [ss_tot] is about 5.8e-34, which
    is positive: the quotient is formed, and when the solver returns the
    exact fit [(0.1, 0)] the engine returns [r2 = 1.0], a number. *)
Lemma ols_constant_y_binary64_counterexample :
  let c := 0x1.999999999999ap-4%float in
  let lstsq := fun (_ : list (list float)) (_ : list float) => Some [c; 0%float] in
  let y := [c; c; c] in
  let X := [[1%float]; [2%float]; [3%float]] in
  c = PrimFloat.div 1%float 10%float
  /\ a_mean binary64 y = 0x1.999999999999bp-4%float
  /\ a_gt0 binary64 (Generic.ss_tot binary64 y) = true
  /\ Generic.ols binary64 lstsq y X = Some ([c; 0%float], 1%float, 3%nat)
  /\ PrimFloat.is_nan 1%float = false.
Proof.
  intros c lstsq y X. repeat split; vm_compute; reflexivity.
Qed.



